(** * QVMDevice: measurement post-processing of pennylane_forest/qvm.py

    A shallow embedding of [QVMDevice] (construction, [pre_measure],
    [expval], [probabilities], [var]) and the properties of its
    post-processing.

    Conventions of the model.
    - A finite float64 is a rational number, so NumPy scalars are values of
      [Qc]; NumPy's arithmetic is read as exact arithmetic on them (rounding
      is not modelled, NaN and infinities do not occur).  Tallies and sums of
      +1/-1 are integers, which float64 holds exactly.
    - Integers are unbounded and an array of any size can be allocated:
      the int64 weights [2 ** k] of [probabilities] overflow only from 64
      wires on, far beyond an array of [2 ** N] floats.
    - A measured bit is a [bool]; a column of the bitstring array is a
      [list bool].
    - The device string is a list of code points; the names of
      observables, gates and quantum computers are ASCII strings.
    - A Python exception is a value of [exn]; a method that can raise
      returns [res A].
    - Python dictionaries ([self._eigs], [self.state]) are [gmap]s.
    - NumPy's [linalg.eigh] and pyQuil's [get_qubits], [compile] and [run]
      are libraries outside this repository: they are parameters of the
      model.  So is what construction calls: Python's table of decimal
      digits and its limit on the length of integer strings, the
      constructor of the base class, and pyQuil's [get_qc] and
      [_get_qvm_with_topology], each of which can raise. *)

From Stdlib Require Import QArith Qcanon ZArith Lia String Ascii.
From Stdlib Require DecimalNat DecimalFacts.
From stdpp Require Import base numbers option list gmap strings countable.

Local Open Scope Z_scope.

(** ** Python values, exceptions and results *)

(** A complex number: real and imaginary part. *)
Abbreviation complex := (Qc * Qc)%type (only parsing).

(** A two-dimensional array, row by row. *)
Abbreviation matrix := (list (list (Qc * Qc))) (only parsing).

(** [tuple(H.flatten().tolist())], the key of the eigen-cache. *)
Abbreviation eigkey := (list (Qc * Qc)) (only parsing).

Inductive exn : Type :=
| KeyError_state (w : nat)          (* self.state[w], w not measured *)
| KeyError_eigs (k : eigkey)        (* self._eigs[Hkey], Hkey not cached *)
| IndexError                        (* sequence index out of range *)
| TypeError                         (* subscript of None *)
| AttributeError                    (* .flatten() of a scalar *)
| ValueError (msg : string).

Inductive res (A : Type) : Type :=
| Ok (a : A)
| Raise (e : exn).
Arguments Ok {A} a.
Arguments Raise {A} e.

#[global] Instance res_bind : MBind res := fun A B k m =>
  match m with
  | Ok a => k a
  | Raise e => Raise e
  end.

Definition of_option {A} (o : option A) (e : exn) : res A :=
  match o with
  | Some a => Ok a
  | None => Raise e
  end.

(** A parameter of an operation or of an observable: a scalar or an array. *)
Inductive param : Type :=
| PNum (x : Qc)
| PMat (m : matrix).

(** What [expval] and [var] hand back: a number, or [None] when the body
    falls off its end. *)
Inductive pyval : Type :=
| VNum (x : Qc)
| VNone.

(** ** NumPy on one-dimensional arrays *)

Definition Qc_sum (l : list Qc) : Qc := foldr Qcplus 0%Qc l.

Definition Qc_len {A} (l : list A) : Qc := Qc_of_Z (Z.of_nat (length l)).

(** [np.mean]; the array is not empty wherever the device calls it. *)
Definition np_mean (l : list Qc) : Qc := (Qc_sum l / Qc_len l)%Qc.

(** [np.var] with its default [ddof=0]: the mean of the squared deviations
    from the mean. *)
Definition np_var (l : list Qc) : Qc :=
  let m := np_mean l in
  np_mean (map (fun x => ((x - m) * (x - m))%Qc) l).

(** [1 - 2 * column] *)
Definition pm1 (col : list bool) : list Qc :=
  map (fun b : bool => if b then (-1)%Qc else 1%Qc) col.

(** [a @ b] on two vectors: the shapes must agree. *)
Definition dot (a b : list Qc) : res Qc :=
  if decide (length a = length b)
  then Ok (Qc_sum (zip_with Qcmult a b))
  else Raise (ValueError "matmul: shape mismatch").

(** [w ** 2] *)
Definition sq (w : list Qc) : list Qc := map (fun x => (x * x)%Qc) w.

(** ** The device *)

Record observable : Type := {
  name : string;
  wires : list nat;
  parameters : list param;
}.

Inductive instr : Type :=
| Gate (gate : string) (par : list param) (ws : list nat)
| PragmaInitialRewiringPartial
| RESET
| DECLARE (reg : string) (ty : string) (size : nat)
| MEASURE (q : nat) (ro : nat).

Record program : Type := {
  instrs : list instr;
  num_shots : Z;
}.

Record eig : Type := {
  eigval : list Qc;
  eigvec : matrix;
}.

Record QVMDevice : Type := {
  num_wires : Z;
  shots : Z;
  active_reset : bool;
  qc_name : string;
  _eigs : gmap eigkey eig;
  obs_queue : list observable;
  prog : program;
  state : option (gmap nat (list bool));
}.

(** [self.state[w]] *)
Definition state_get (d : QVMDevice) (w : nat) : res (list bool) :=
  match state d with
  | None => Raise TypeError
  | Some st => of_option (st !! w) (KeyError_state w)
  end.

(** [tuple(par[0].flatten().tolist())] *)
Definition Hkey_of (par : list param) : res eigkey :=
  match par with
  | [] => Raise IndexError
  | PNum _ :: _ => Raise AttributeError
  | PMat H :: _ => Ok (concat H)
  end.

(** [self._eigs[Hkey]["eigval"]] *)
Definition eigs_get (d : QVMDevice) (k : eigkey) : res eig :=
  of_option (_eigs d !! k) (KeyError_eigs k).

(** ** [probabilities] *)

(** [np.array(cols).T]: the rows of the array whose columns are [cols]. *)
Fixpoint transpose {A} (cols : list (list A)) : list (list A) :=
  match cols with
  | [] => []
  | [c] => map (fun b => [b]) c
  | c :: cs => zip_with cons c (transpose cs)
  end.

(** [2 ** np.arange(n - 1, -1, -1)] *)
Definition basis_weights (n : nat) : list Z :=
  map (fun k => 2 ^ Z.of_nat k) (rev (seq 0 n)).

(** [np.sum(2 ** np.arange(len(wires) - 1, -1, -1) * i)] *)
Definition cb_of (n : nat) (i : list bool) : Z :=
  foldr Z.add 0 (zip_with Z.mul (basis_weights n) (map Z.b2z i)).

(** [probs[cb, 1] += 1] on the array of (basis state, tally) rows; a
    negative index counts from the end, one outside the array raises. *)
Definition tally (cb : Z) (probs : list (Z * Z)) : res (list (Z * Z)) :=
  let len := Z.of_nat (length probs) in
  if decide (0 <= cb < len)
  then Ok (alter (fun r => (r.1, r.2 + 1)) (Z.to_nat cb) probs)
  else if decide (- len <= cb < 0)
  then Ok (alter (fun r => (r.1, r.2 + 1)) (Z.to_nat (cb + len)) probs)
  else Raise IndexError.

Fixpoint tally_all (n : nat) (rows : list (list bool)) (probs : list (Z * Z))
  : res (list (Z * Z)) :=
  match rows with
  | [] => Ok probs
  | i :: rows' => probs' ← tally (cb_of n i) probs; tally_all n rows' probs'
  end.

(** [probs[probs[:, 0].argsort()]]: the rows in the order of their first
    column. *)
Fixpoint insert_row (r : Z * Z) (l : list (Z * Z)) : list (Z * Z) :=
  match l with
  | [] => [r]
  | r' :: l' => if decide (r.1 <= r'.1) then r :: l else r' :: insert_row r l'
  end.

Definition sort_rows (l : list (Z * Z)) : list (Z * Z) :=
  foldr insert_row [] l.

Fixpoint mapM_res {A B} (f : A -> res B) (l : list A) : res (list B) :=
  match l with
  | [] => Ok []
  | a :: l' => b ← f a; bs ← mapM_res f l'; Ok (b :: bs)
  end.

Definition probabilities (d : QVMDevice) (ws : list nat) : res (list Qc) :=
  let n := length ws in
  let probs := map (fun k => (Z.of_nat k, 0)) (seq 0 (2 ^ n)%nat) in
  cols ← mapM_res (state_get d) ws;
  probs ← tally_all n (transpose cols) probs;
  let probs :=
    map (fun r : Z * Z => ((Qc_of_Z r.1 / Qc_of_Z (shots d))%Qc,
                           (Qc_of_Z r.2 / Qc_of_Z (shots d))%Qc))
        (sort_rows probs) in
  Ok (map snd probs).

(** ** [expval] *)

Definition expval (d : QVMDevice) (observable : string) (ws : list nat)
    (par : list param) : res pyval :=
  match ws with
  | [w0] =>
      (* 1 qubit observable *)
      col ← state_get d w0;
      let evZ := np_mean (pm1 col) in
      let p0 := ((1 + evZ) / 2)%Qc in
      let p1 := ((1 - evZ) / 2)%Qc in
      if decide (observable = "Identity") then Ok (VNum (p0 + p1)%Qc)
      else if decide (observable = "Hermitian") then
        Hkey ← Hkey_of par;
        e ← eigs_get d Hkey;
        let w := eigval e in
        w0 ← of_option (w !! 0%nat) IndexError;
        w1 ← of_option (w !! 1%nat) IndexError;
        Ok (VNum (w0 * p0 + w1 * p1)%Qc)
      else Ok (VNum evZ)
  | _ =>
      (* multi-qubit observable *)
      probs ← probabilities d ws;
      if decide (observable = "Hermitian") then
        Hkey ← Hkey_of par;
        e ← eigs_get d Hkey;
        r ← dot (eigval e) probs;
        Ok (VNum r)
      else Ok VNone
  end.

(** ** [var] *)

(** [(w ** 2) @ probs - (w @ probs) ** 2] *)
Definition second_moment (w probs : list Qc) : res Qc :=
  a ← dot (sq w) probs;
  b ← dot w probs;
  Ok (a - b * b)%Qc.

(** The part of [var] after the single-wire branch, which a single-wire
    call with an unlisted name also reaches. *)
Definition var_multi (d : QVMDevice) (observable : string) (ws : list nat)
    (par : list param) : res pyval :=
  probs ← probabilities d ws;
  if decide (observable = "Hermitian") then
    Hkey ← Hkey_of par;
    e ← eigs_get d Hkey;
    r ← second_moment (eigval e) probs;
    Ok (VNum r)
  else Ok VNone.

Definition var (d : QVMDevice) (observable : string) (ws : list nat)
    (par : list param) : res pyval :=
  match ws with
  | [w0] =>
      if decide (observable = "Identity") then Ok (VNum 0%Qc)
      else
        col ← state_get d w0;
        let varZ := np_var (pm1 col) in
        if decide (observable ∈ ["PauliX"; "PauliY"; "PauliZ"; "Hadamard"])
        then Ok (VNum varZ)
        else
          let evZ := np_mean (pm1 col) in
          let probs := [((1 + evZ) / 2)%Qc; ((1 - evZ) / 2)%Qc] in
          if decide (observable = "Hermitian") then
            Hkey ← Hkey_of par;
            e ← eigs_get d Hkey;
            r ← second_moment (eigval e) probs;
            Ok (VNum r)
          else var_multi d observable ws par
  | _ => var_multi d observable ws par
  end.

(** ** The working program and the calls to libraries *)

(** What the device asks of NumPy and pyQuil, in the order of the calls. *)
Inductive event : Type :=
| EvEigh (H : matrix)               (* np.linalg.eigh(H) returned *)
| EvCompile (p : program)           (* self.qc.compile(p) *)
| EvRun (p : program).              (* self.qc.run(p) *)

(** The device together with the calls it has made so far. *)
Record world : Type := {
  dev : QVMDevice;
  trace : list event;
}.

(** A method that updates the device and may raise. *)
Definition M (A : Type) : Type := world -> res A * world.

#[global] Instance M_ret : MRet M := fun A a w => (Ok a, w).

#[global] Instance M_bind : MBind M := fun A B k m w =>
  match m w with
  | (Ok a, w') => k a w'
  | (Raise e, w') => (Raise e, w')
  end.

Definition get_dev : M QVMDevice := fun w => (Ok (dev w), w).

Definition set_dev (d : QVMDevice) : M unit :=
  fun w => (Ok tt, {| dev := d; trace := trace w |}).

Definition emit (ev : event) : M unit :=
  fun w => (Ok tt, {| dev := dev w; trace := trace w ++ [ev] |}).

Definition lift {A} (r : res A) : M A := fun w => (r, w).

Definition with_prog (p : program) (d : QVMDevice) : QVMDevice :=
  {| num_wires := num_wires d; shots := shots d;
     active_reset := active_reset d; qc_name := qc_name d;
     _eigs := _eigs d; obs_queue := obs_queue d; prog := p;
     state := state d |}.

Definition with_eigs (m : gmap eigkey eig) (d : QVMDevice) : QVMDevice :=
  {| num_wires := num_wires d; shots := shots d;
     active_reset := active_reset d; qc_name := qc_name d;
     _eigs := m; obs_queue := obs_queue d; prog := prog d;
     state := state d |}.

Definition with_state (st : option (gmap nat (list bool))) (d : QVMDevice)
  : QVMDevice :=
  {| num_wires := num_wires d; shots := shots d;
     active_reset := active_reset d; qc_name := qc_name d;
     _eigs := _eigs d; obs_queue := obs_queue d; prog := prog d;
     state := st |}.

Definition with_obs_queue (q : list observable) (d : QVMDevice) : QVMDevice :=
  {| num_wires := num_wires d; shots := shots d;
     active_reset := active_reset d; qc_name := qc_name d;
     _eigs := _eigs d; obs_queue := q; prog := prog d;
     state := state d |}.

(** pyQuil's [p + q] and [p.inst(i)] *)
Definition prog_add (p q : program) : program :=
  {| instrs := instrs p ++ instrs q; num_shots := num_shots p |}.

Definition prog_inst (p : program) (i : instr) : program :=
  {| instrs := instrs p ++ [i]; num_shots := num_shots p |}.

(** Modelled from the spec: [ForestDevice.apply] (pennylane_forest/device.py
    is not among the sources).  It appends the named gate, with its
    parameters, on the given wires to the working program. *)
Definition apply (operation : string) (ws : list nat) (par : list param)
  : M unit :=
  d ← get_dev;
  set_dev (with_prog (prog_inst (prog d) (Gate operation par ws)) d).

(** [np.pi] is the float64 884279719003555 / 2^48, so [-np.pi / 4] is *)
Definition neg_pi_over_4 : Qc := Q2Qc (-884279719003555 # 1125899906842624).

(** [U.conj().T] *)
Definition conj (z : Qc * Qc) : Qc * Qc := (z.1, (- z.2)%Qc).

Definition conj_T (U : matrix) : matrix := transpose (map (map conj) U).

(** [needle in s] on strings *)
Fixpoint str_contains (needle s : string) : bool :=
  String.prefix needle s ||
  match s with
  | EmptyString => false
  | String _ s' => str_contains needle s'
  end.

(** [bitstring_array[:, i]] *)
Definition column (rows : list (list bool)) (i : nat) : res (list bool) :=
  mapM_res (fun row : list bool => of_option (row !! i) IndexError) rows.

Fixpoint mapM_ {A} (f : A -> M unit) (l : list A) : M unit :=
  match l with
  | [] => mret tt
  | a :: l' => _ ← f a; mapM_ f l'
  end.

Section Backend.
(** [np.linalg.eigh]: the eigenvalues and the matrix of eigenvectors, or
    [None] where NumPy raises (the array is not square). *)
Variable eigh : matrix -> option (list Qc * matrix).
(** [list(Program.get_qubits())] *)
Variable get_qubits : list instr -> list nat.
(** [QuantumComputer.compile] *)
Variable qc_compile : program -> program.
(** [QuantumComputer.run]: one row of bits per shot.  The outcome is
    random: it may depend on all that was asked before. *)
Variable qc_run : list event -> program -> list (list bool).
(** ** [pre_measure] *)

(** The body of [for e in self.obs_queue]. *)
Definition rotate (e : observable) : M unit :=
  let ws := wires e in
  if decide (name e = "PauliX") then
    apply "Hadamard" ws []
  else if decide (name e = "PauliY") then
    _ ← apply "PauliZ" ws [];
    _ ← apply "S" ws [];
    apply "Hadamard" ws []
  else if decide (name e = "Hadamard") then
    apply "RY" ws [PNum neg_pi_over_4]
  else if decide (name e = "Hermitian") then
    H ← lift (of_option (parameters e !! 0%nat) IndexError);
    H ← lift (match H with
              | PMat m => Ok m
              | PNum _ => Raise AttributeError
              end);
    let Hkey := concat H in
    d ← get_dev;
    U ← match _eigs d !! Hkey with
        | Some c => mret (eigvec c)
        | None =>
            wU ← lift (of_option (eigh H) (ValueError "LinAlgError"));
            _ ← emit (EvEigh H);
            _ ← set_dev (with_eigs
                   (<[Hkey := {| eigval := wU.1; eigvec := wU.2 |}]> (_eigs d))
                   d);
            mret wU.2
        end;
    apply "QubitUnitary" ws [PMat (conj_T U)]
  else mret tt.

(** [for i, q in enumerate(qubits): self.state[q] = bitstring_array[:, i]] *)
Fixpoint extract_state (i : nat) (qubits : list nat)
    (rows : list (list bool)) : M unit :=
  match qubits with
  | [] => mret tt
  | q :: qs =>
      col ← lift (column rows i);
      d ← get_dev;
      _ ← set_dev (with_state (Some (<[q := col]> (default ∅ (state d)))) d);
      extract_state (S i) qs rows
  end.

(** Lines 166-170: run on the pyQVM as it is, elsewhere compile first. *)
Definition run_program (d : QVMDevice) (p : program)
  : M (list (list bool)) :=
  if str_contains "pyqvm" (qc_name d) then
    t ← (fun w => (Ok (trace w), w));
    _ ← emit (EvRun p);
    mret (qc_run t p)
  else
    let executable := qc_compile p in
    _ ← emit (EvCompile p);
    t ← (fun w => (Ok (trace w), w));
    _ ← emit (EvRun executable);
    mret (qc_run t executable).

(** Lines 152-174: complete the program, run it, keep the outcomes. *)
Definition measure_and_run : M unit :=
  d ← get_dev;
  let prag := {| instrs := [PragmaInitialRewiringPartial]; num_shots := 1 |} in
  let prag := if active_reset d then prog_inst prag RESET else prag in
  let p := prog_add prag (prog d) in
  let qubits := get_qubits (instrs p) in
  let p := prog_inst p (DECLARE "ro" "BIT" (length qubits)) in
  let p := foldl prog_inst p (imap (fun i q => MEASURE q i) qubits) in
  let p := {| instrs := instrs p; num_shots := shots d |} in
  _ ← set_dev (with_prog p d);
  bitstring_array ← run_program d p;
  d ← get_dev;
  _ ← set_dev (with_state (Some ∅) d);
  extract_state 0 qubits bitstring_array.

Definition pre_measure : M unit :=
  d ← get_dev;
  _ ← mapM_ rotate (obs_queue d);
  measure_and_run.

(** ** Construction *)

(** [nx.Graph]: its nodes and edges. *)
Record nx_graph : Type := {
  nodes : list nat;
  edges : list (nat * nat);
}.

(** The [device] argument: a graph, a string (a Python [str] is a
    sequence of code points), or anything else. *)
Inductive device_arg : Type :=
| DevGraph (g : nx_graph)
| DevStr (s : list N)
| DevOther.

(** The code points of an ASCII literal. *)
Definition chars (s : string) : list N :=
  N_of_ascii <$> list_ascii_of_string s.

(** What [__init__] uses from outside this file:
    - [unicode_digit c]: the value of the character [c] when it is a
      decimal digit (Unicode category Nd), which is what [\d] matches in a
      [str] pattern and what [int] reads; [None] for every other character;
    - [int_limit k]: the [ValueError] with which [int] refuses a string of
      [k] digits, in a Python that limits the length of integer strings
      ([sys.get_int_max_str_digits]) and for a [k] above the limit; [None]
      otherwise;
    - [forest_init num_wires shots]: [super().__init__(num_wires, shots,
      **kwargs)], the exception it raises when it raises;
    - [get_qc device]: [get_qc(device, as_qvm=True, noisy=noisy,
      connection=self.connection)], the name of the quantum computer it
      returns, or the exception pyQuil raises;
    - [get_qvm_with_topology device]: [_get_qvm_with_topology("device",
      topology=device, noisy=noisy, connection=self.connection)],
      likewise. *)
Record host : Type := {
  unicode_digit : N -> option Z;
  int_limit : nat -> option exn;
  forest_init : Z -> Z -> option exn;
  get_qc : list N -> res string;
  get_qvm_with_topology : nx_graph -> res string;
}.

(** [\d] *)
Definition is_digit (digit : N -> option Z) (c : N) : bool :=
  match digit c with
  | Some _ => true
  | None => false
  end.

(** [(q|Q)] *)
Definition is_q (c : N) : bool :=
  bool_decide (c = 113%N) || bool_decide (c = 81%N).

(** [re.match(r"(\d+)(q|Q)", s)]: the digits of group 1 when the pattern
    matches at the head of [s].  [\d+] is greedy: it takes as many digits
    as it can and gives them back one by one. *)
Fixpoint match_here (digit : N -> option Z) (s : list N) : option (list N) :=
  match s with
  | c :: rest =>
      if is_digit digit c then
        match match_here digit rest with
        | Some ds => Some (c :: ds)
        | None =>
            match rest with
            | c' :: _ => if is_q c' then Some [c] else None
            | [] => None
            end
        end
      else None
  | [] => None
  end.

(** [re.search(r"(\d+)(q|Q)", s)]: the leftmost match. *)
Fixpoint re_search (digit : N -> option Z) (s : list N) : option (list N) :=
  match match_here digit s with
  | Some ds => Some ds
  | None =>
      match s with
      | [] => None
      | _ :: rest => re_search digit rest
      end
  end.

Definition digit_value (digit : N -> option Z) (c : N) : Z :=
  default 0 (digit c).

(** The integer that the digits write in base ten. *)
Definition int_of_digits (digit : N -> option Z) (ds : list N) : Z :=
  foldl (fun acc c => 10 * acc + digit_value digit c) 0 ds.

(** [int(digits)] on a string of digits. *)
Definition py_int (py : host) (ds : list N) : res Z :=
  match int_limit py (length ds) with
  | Some e => Raise e
  | None => Ok (int_of_digits (unicode_digit py) ds)
  end.

(** [QVMDevice.__init__(device, shots=shots)].  Of [ForestDevice.__init__]
    (pennylane_forest/device.py is not among the sources) the model keeps
    what the spec says of it: it records the number of wires and the shot
    count and starts with an empty program and no measurement state; it
    may also raise.  The second chain of [isinstance] tests has no [else]:
    for a device that is neither a graph nor a string the first chain has
    raised before. *)
Definition init (py : host) (device : device_arg) (shots : Z)
  : res QVMDevice :=
  if decide (shots <= 0) then
    Raise (ValueError "Number of shots must be a positive integer.")
  else
    nw ← match device with
         | DevGraph g => Ok (Z.of_nat (length (nodes g)))
         | DevStr s =>
             match re_search (unicode_digit py) s with
             | None =>
                 Raise (ValueError
                   "QVM device string does not indicate the number of qubits!")
             | Some ds => py_int py ds
             end
         | DevOther =>
             Raise (ValueError
               "Required argument device must be a string corresponding to a valid QVM quantum computer, or a NetworkX graph object.")
         end;
    _ ← match forest_init py nw shots with
        | Some e => Raise e
        | None => Ok ()
        end;
    qc ← match device with
         | DevGraph g => get_qvm_with_topology py g
         | DevStr s => get_qc py s
         | DevOther => Ok ""%string
         end;
    Ok {| num_wires := nw; shots := shots; active_reset := false;
          qc_name := qc; _eigs := ∅; obs_queue := [];
          prog := {| instrs := []; num_shots := 1 |}; state := None |}.

End Backend.

(** ** [sample] *)

(** The requested sample count as Python passes it: an [int] or a
    [float]. *)
Inductive pynum : Type :=
| PyInt (z : Z)
| PyFloat (q : Qc).

(** Modelled from the spec: [sample] (its code is not among the sources).
    The spec: "returns the raw +1/-1 (for simple observables) or
    eigenvalue-valued (for Hermitian, via basis-state index lookup into the
    eigenvalue array) per-shot outcomes, truncated or validated against a
    requested sample count n.  Fails when n is zero, negative, or
    non-integral"; a multi-wire observable that is not Hermitian is the
    unsupported-observable error. *)
Definition sample (d : QVMDevice) (observable : string) (ws : list nat)
    (par : list param) (n : pynum) : res (list Qc) :=
  match n with
  | PyFloat q =>
      if decide (q = 0%Qc)
      then Raise (ValueError "Calling sample with n = 0 is not possible.")
      else Raise (ValueError "The number of samples must be a positive integer.")
  | PyInt z =>
      if decide (z = 0)
      then Raise (ValueError "Calling sample with n = 0 is not possible.")
      else if decide (z < 0)
      then Raise (ValueError "The number of samples must be a positive integer.")
      else
        outcomes ←
          (if decide (observable = "Hermitian") then
             Hkey ← Hkey_of par;
             e ← eigs_get d Hkey;
             cols ← mapM_res (state_get d) ws;
             mapM_res
               (fun i : list bool =>
                  let cb := cb_of (length ws) i in
                  if decide (0 <= cb)
                  then of_option (eigval e !! Z.to_nat cb) IndexError
                  else Raise IndexError)
               (transpose cols)
           else
             match ws with
             | [w0] => col ← state_get d w0; Ok (pm1 col)
             | _ => Raise (ValueError "unsupported observable")
             end);
        Ok (take (Z.to_nat z) outcomes)
  end.

(** ** The life of a device *)

(** What the frontend may do with a constructed device.  [CApply],
    [CSetObsQueue] and [CReset] are modelled from the spec (the frontend
    supplies "an ordered operation queue" and "an ordered observable
    queue"; pennylane_forest/device.py is not among the sources). *)
Inductive call : Type :=
| CApply (operation : string) (ws : list nat) (par : list param)
| CSetObsQueue (q : list observable)
| CReset
| CPreMeasure
| CExpval (observable : string) (ws : list nat) (par : list param)
| CVar (observable : string) (ws : list nat) (par : list param)
| CProbabilities (ws : list nat)
| CSample (observable : string) (ws : list nat) (par : list param) (n : pynum).

Section Life.
Variable eigh : matrix -> option (list Qc * matrix).
Variable get_qubits : list instr -> list nat.
Variable qc_compile : program -> program.
Variable qc_run : list event -> program -> list (list bool).

(** One call; an exception leaves the device as the call left it. *)
Definition exec (c : call) (w : world) : world :=
  match c with
  | CApply operation ws par => (apply operation ws par w).2
  | CSetObsQueue q =>
      {| dev := with_obs_queue q (dev w); trace := trace w |}
  | CReset =>
      {| dev := with_state None
                  (with_prog {| instrs := []; num_shots := 1 |} (dev w));
         trace := trace w |}
  | CPreMeasure => (pre_measure eigh get_qubits qc_compile qc_run w).2
  | CExpval _ _ _ | CVar _ _ _ | CProbabilities _ | CSample _ _ _ _ => w
  end.

Definition exec_all (cs : list call) (w : world) : world :=
  foldl (fun w c => exec c w) w cs.

End Life.

(** The matrices whose eigendecomposition was computed, by cache key. *)
Definition eigh_keys (t : list event) : list eigkey :=
  omap (fun ev => match ev with EvEigh H => Some (concat H) | _ => None end) t.

(** * The vocabulary of the properties *)

(** The column of wire [w], empty when [w] was not measured. *)
Definition column_of (st : gmap nat (list bool)) (w : nat) : list bool :=
  default [] (st !! w).

(** Row [j] of the array with the given columns. *)
Definition row_at (cols : list (list bool)) (j : nat) : list bool :=
  map (fun c : list bool => default false (c !! j)) cols.

(** The bits of a shot read as a binary numeral, first bit most
    significant. *)
Definition encode_msb (bits : list bool) : Z :=
  foldl (fun acc (b : bool) => 2 * acc + Z.b2z b) 0 bits.

(** The array of (basis state, tally) rows with tallies [c]. *)
Definition tallies (N : nat) (c : nat -> Z) : list (Z * Z) :=
  map (fun k => (Z.of_nat k, c k)) (seq 0 N).

(** How many of the rows encode basis state [k]. *)
Definition count_rows (rows : list (list bool)) (k : nat) : Z :=
  Z.of_nat (length (filter (fun i => encode_msb i = Z.of_nat k) rows)).

(** The bit measured on wire [w] in shot [j]. *)
Definition bit_at (st : gmap nat (list bool)) (w j : nat) : bool :=
  default false (column_of st w !! j).

(** The bits of shot [j] on the listed wires, in the order of the list. *)
Definition shot_bits (st : gmap nat (list bool)) (ws : list nat) (j : nat)
  : list bool :=
  map (fun w => bit_at st w j) ws.

(** The number of shots, among the first [m], whose bits on the listed
    wires encode the basis state [k]. *)
Definition shots_encoding (st : gmap nat (list bool)) (ws : list nat)
    (m k : nat) : Z :=
  Z.of_nat (length (filter (fun j => encode_msb (shot_bits st ws j) = Z.of_nat k)
                           (seq 0 m))).

(** The sum of [1 - 2 * bit] over a column, as an integer. *)
Definition sum_pm1 (col : list bool) : Z :=
  foldr Z.add 0 (map (fun b : bool => 1 - 2 * Z.b2z b) col).

(** The sample mean of [1 - 2 * bit] over a column. *)
Definition sample_mean_pm1 (col : list bool) : Qc :=
  (Qc_of_Z (sum_pm1 col) / Qc_of_Z (Z.of_nat (length col)))%Qc.

(** The variance of the sample [1 - 2 * bit]: the mean of the squared
    deviations from the sample mean. *)
Definition sample_var_pm1 (col : list bool) : Qc :=
  let m := sample_mean_pm1 col in
  (Qc_sum (map (fun b : bool =>
                  (Qc_of_Z (1 - 2 * Z.b2z b) - m) * (Qc_of_Z (1 - 2 * Z.b2z b) - m))
               col)
   / Qc_of_Z (Z.of_nat (length col)))%Qc.

(** The names [expval] answers with the mean itself. *)
Definition simple_observables : list string :=
  ["PauliX"; "PauliY"; "PauliZ"; "Hadamard"]%string.

(** The probabilities of 0 and of 1 that [expval] and [var] derive from the
    column of one wire. *)
Definition p0_of (col : list bool) : Qc := ((1 + sample_mean_pm1 col) / 2)%Qc.

Definition p1_of (col : list bool) : Qc := ((1 - sample_mean_pm1 col) / 2)%Qc.

(** The wires are measured: each has a column of [shots] bits. *)
Definition measured (d : QVMDevice) (st : gmap nat (list bool))
    (ws : list nat) : Prop :=
  state d = Some st /\ 0 < shots d /\
  forall w, w ∈ ws ->
    exists col, st !! w = Some col /\ Z.of_nat (length col) = shots d.

(** The world after the gates [gs] were appended to the program. *)
Definition add_gates (gs : list instr) (w : world) : world :=
  {| dev := with_prog {| instrs := instrs (prog (dev w)) ++ gs;
                         num_shots := num_shots (prog (dev w)) |} (dev w);
     trace := trace w |}.

(** The world after [eigh H] returned [(vals, U)] and was cached. *)
Definition learn (H : matrix) (vals : list Qc) (U : matrix) (w : world)
  : world :=
  {| dev := with_eigs (<[concat H := {| eigval := vals; eigvec := U |}]>
                         (_eigs (dev w))) (dev w);
     trace := trace w ++ [EvEigh H] |}.

(** The gate that undoes the eigenbasis [U] on the wires of [e]. *)
Definition unitary_gate (U : matrix) (e : observable) : instr :=
  Gate "QubitUnitary" [PMat (conj_T U)] (wires e).

(** Every entry of the cache of [w] is an entry of the cache of [w']. *)
Definition cache_le (w w' : world) : Prop :=
  forall k c, _eigs (dev w) !! k = Some c -> _eigs (dev w') !! k = Some c.

(** The eigendecompositions computed so far have distinct keys, and their
    keys are the keys of the cache. *)
Definition eigh_once (w : world) : Prop :=
  NoDup (eigh_keys (trace w))
  /\ forall k, k ∈ eigh_keys (trace w) <-> is_Some (_eigs (dev w) !! k).

(** The instructions [pre_measure] puts around the program. *)
Definition prologue (d : QVMDevice) : list instr :=
  PragmaInitialRewiringPartial :: (if active_reset d then [RESET] else []).

Definition measurements (qubits : list nat) : list instr :=
  DECLARE "ro" "BIT" (length qubits) :: imap (fun i q => MEASURE q i) qubits.

(** A device as [init] leaves it, before any call. *)
Definition fresh (d : QVMDevice) : world := {| dev := d; trace := [] |}.

(** A square array: as many entries in each row as there are rows. *)
Definition square (M : matrix) : Prop :=
  Forall (fun r => length r = length M) M.




(** The letters q and Q are no digits. *)
Definition letters_q (digit : N -> option Z) : Prop :=
  digit 113%N = None /\ digit 81%N = None.

(** The characters 0 to 9 are digits, with their values. *)
Definition ascii_digits (digit : N -> option Z) : Prop :=
  forall k : nat, (k < 10)%nat -> digit (48 + N.of_nat k)%N = Some (Z.of_nat k).





(** A sample count that is not a positive integer. *)
Definition not_positive_int (n : pynum) : Prop :=
  match n with
  | PyInt z => z <= 0
  | PyFloat _ => True
  end.

Section Vocabulary.
(** [np.linalg.eigh], as in the model. *)
Variable eigh : matrix -> option (list Qc * matrix).

(** Every way one turn of the loop can end. *)
Inductive rotated (e : observable) (w : world) : res unit * world -> Prop :=
| rotated_gates gs :
    name e <> "Hermitian"%string ->
    rotated e w (Ok tt, add_gates gs w)
| rotated_raise x :
    name e = "Hermitian"%string ->
    rotated e w (Raise x, w)
| rotated_hit H c :
    name e = "Hermitian"%string ->
    parameters e !! 0%nat = Some (PMat H) ->
    _eigs (dev w) !! concat H = Some c ->
    rotated e w (Ok tt, add_gates [unitary_gate (eigvec c) e] w)
| rotated_miss H vals U :
    name e = "Hermitian"%string ->
    parameters e !! 0%nat = Some (PMat H) ->
    _eigs (dev w) !! concat H = None ->
    eigh H = Some (vals, U) ->
    rotated e w (Ok tt, add_gates [unitary_gate U e] (learn H vals U w)).

(** The gates the specification lists for an observable: nothing for
    Identity and PauliZ, Hadamard for PauliX, PauliZ then S then Hadamard
    for PauliY, RY(-pi/4) for Hadamard, and for a Hermitian matrix the
    conjugate transpose of its eigenvector matrix as a QubitUnitary. *)
Definition rotation_gates (e : observable) : list instr :=
  let ws := wires e in
  if decide (name e = "PauliX"%string) then [Gate "Hadamard" [] ws]
  else if decide (name e = "PauliY"%string) then
    [Gate "PauliZ" [] ws; Gate "S" [] ws; Gate "Hadamard" [] ws]
  else if decide (name e = "Hadamard"%string) then
    [Gate "RY" [PNum neg_pi_over_4] ws]
  else if decide (name e = "Hermitian"%string) then
    match parameters e with
    | PMat H :: _ =>
        match eigh H with
        | Some (_, U) => [Gate "QubitUnitary" [PMat (conj_T U)] ws]
        | None => []
        end
    | _ => []
    end
  else [].

(** A Hermitian observable carries a square matrix that NumPy can
    diagonalise. *)
Definition hermitian_ok (e : observable) : Prop :=
  name e = "Hermitian"%string ->
  exists H rest vals U,
    parameters e = PMat H :: rest /\ square H /\ eigh H = Some (vals, U).

(** Every entry of the cache is the eigendecomposition of a square matrix
    with that key. *)
Definition cache_coherent (d : QVMDevice) : Prop :=
  forall k c, _eigs d !! k = Some c ->
    exists H, square H /\ concat H = k /\ eigh H = Some (eigval c, eigvec c).

End Vocabulary.

(** ** A device and a backend to try the properties on *)

(** The matrices diag(1,2) and diag(1,2,2,1). *)
Definition H2 : matrix := [[(1, 0); (0, 0)]; [(0, 0); (2, 0)]]%Qc.

Definition H4 : matrix :=
  [[(1, 0); (0, 0); (0, 0); (0, 0)];
   [(0, 0); (2, 0); (0, 0); (0, 0)];
   [(0, 0); (0, 0); (2, 0); (0, 0)];
   [(0, 0); (0, 0); (0, 0); (1, 0)]]%Qc.

(** Four shots on wires 0 and 1. *)
Definition measured_state : gmap nat (list bool) :=
  <[0%nat := [true; false; true; true]]>
    (<[1%nat := [false; false; true; true]]> ∅).

(** A device that measured wires 0 and 1, with the eigenvalues of [H2] and
    of [H4] in its cache. *)
Definition measured_dev : QVMDevice :=
  {| num_wires := 2; shots := 4; active_reset := false; qc_name := "2q-qvm";
     _eigs := <[concat H2 := {| eigval := [1; 2]%Qc; eigvec := [] |}]>
                (<[concat H4 := {| eigval := [1; 1; 2; 2]%Qc; eigvec := [] |}]> ∅);
     obs_queue := []; prog := {| instrs := []; num_shots := 1 |};
     state := Some measured_state |}.

(** A device that measured wires 0 and 1 and has nothing in its cache. *)
Definition uncached_dev : QVMDevice := with_eigs ∅ measured_dev.

(** An eigendecomposition that is right on diagonal matrices with an
    increasing diagonal: the diagonal and the identity. *)
Definition demo_eigh (H : matrix) : option (list Qc * matrix) :=
  Some (imap (fun i row => (default (0, 0)%Qc (row !! i)).1) H,
        imap (fun i row =>
                imap (fun j _ => if decide (i = j) then (1, 0)%Qc else (0, 0)%Qc)
                     row) H).

Definition instr_qubits (i : instr) : list nat :=
  match i with
  | Gate _ _ ws => ws
  | MEASURE q _ => [q]
  | _ => []
  end.

Definition demo_get_qubits (l : list instr) : list nat :=
  remove_dups (flat_map instr_qubits l).

Definition demo_compile (p : program) : program := p.

(** Every shot measures 0 on two qubits. *)
Definition demo_run (t : list event) (p : program) : list (list bool) :=
  replicate (Z.to_nat (num_shots p)) [false; false].

(** The digits 0 to 9 and the Arabic-Indic digits U+0660 to U+0669, two
    of the ranges of Unicode decimal digits. *)
Definition demo_digit (c : N) : option Z :=
  if decide (48 <= c <= 57)%N then Some (Z.of_N c - 48)
  else if decide (1632 <= c <= 1641)%N then Some (Z.of_N c - 1632)
  else None.

(** The text of a string of ASCII code points. *)
Definition text (s : list N) : string :=
  string_of_list_ascii (ascii_of_N <$> s).

(** A stand-in for pyQuil's [get_qc]: the quantum computer is named after
    the device string, and a QVM of no qubits is refused, as [get_qc] does
    for "0q-pyqvm" (the text of the message is pyQuil's own). *)
Definition demo_get_qc (s : list N) : res string :=
  match re_search demo_digit s with
  | Some ds =>
      if decide (int_of_digits demo_digit ds = 0) then
        Raise (ValueError "get_qc")
      else Ok (text s)
  | None => Ok (text s)
  end.

(** Python's default limit of 4300 digits (the text of the message
    varies with the version). *)
Definition demo_int_limit (k : nat) : option exn :=
  if decide (4300 < k)%nat then
    Some (ValueError "Exceeds the limit (4300 digits) for integer string conversion")
  else None.

(** A base class that accepts every argument and a pyQuil that builds
    every topology. *)
Definition demo_host : host :=
  {| unicode_digit := demo_digit;
     int_limit := demo_int_limit;
     forest_init := fun _ _ => None;
     get_qc := demo_get_qc;
     get_qvm_with_topology := fun _ => Ok "device"%string |}.

Definition demo_exec_all : list call -> world -> world :=
  exec_all demo_eigh demo_get_qubits demo_compile demo_run.

(** The frontend asks for the Hermitian observable [H2] on wire 0. *)
Definition demo_obs : observable :=
  {| name := "Hermitian"; wires := [0%nat]; parameters := [PMat H2] |}.

Definition demo_calls : list call :=
  [CApply "Hadamard" [0%nat] []; CSetObsQueue [demo_obs]; CPreMeasure].

(** The demo device before [pre_measure], with PauliX on wire 1, PauliY on
    wire 0 and the Hermitian observable in the queue. *)
Definition demo_queued : world :=
  demo_exec_all
    [CApply "Hadamard" [0%nat] [];
     CSetObsQueue
       [{| name := "PauliX"; wires := [1%nat]; parameters := [] |};
        {| name := "PauliY"; wires := [0%nat]; parameters := [] |};
        demo_obs]]
    (fresh {| num_wires := 2; shots := 4; active_reset := false;
              qc_name := "2q-qvm"; _eigs := ∅; obs_queue := [];
              prog := {| instrs := []; num_shots := 1 |}; state := None |}).

(** The same device after [pre_measure]: the eigendecomposition of [H2] is
    in its cache. *)
Definition demo_measured : world :=
  (pre_measure demo_eigh demo_get_qubits demo_compile demo_run demo_queued).2.

(** ** More vocabulary: counts, columns, backends *)

(** The number of shots of a column that measured 0. *)
Definition zeros (col : list bool) : Z :=
  Z.of_nat (length (filter (fun b : bool => b = false) col)).

(** The six names the device lists as its observables (line 69). *)
Definition observables : list string :=
  ["PauliX"; "PauliY"; "PauliZ"; "Identity"; "Hadamard"; "Hermitian"]%string.

(** Column [i] of an array of rows. *)
Definition column_at (rows : list (list bool)) (i : nat) : list bool :=
  map (fun row : list bool => default false (row !! i)) rows.

Definition is_measure (i : instr) : bool :=
  match i with
  | MEASURE _ _ => true
  | _ => false
  end.

(** The number of measurement instructions of a program. *)
Definition count_measures (l : list instr) : nat :=
  length (filter (fun i => is_measure i = true) l).

(** What the device relies on from pyQuil: the qubits of a program come
    from a set; compiling keeps the shot count and the measurements; a run
    returns one row per shot with one bit per measurement. *)
Definition backend_ok (get_qubits : list instr -> list nat)
    (qc_compile : program -> program)
    (qc_run : list event -> program -> list (list bool)) : Prop :=
  (forall l, NoDup (get_qubits l))
  /\ (forall p, num_shots (qc_compile p) = num_shots p
                /\ count_measures (instrs (qc_compile p))
                   = count_measures (instrs p))
  /\ (forall t p,
        length (qc_run t p) = Z.to_nat (num_shots p)
        /\ Forall (fun row => length row = count_measures (instrs p))
                  (qc_run t p)).

(** The programs the backend was asked to run. *)
Definition run_calls (t : list event) : list program :=
  omap (fun ev => match ev with EvRun p => Some p | _ => None end) t.

(** What [e.parameters[0]] and [.flatten()] raise on parameters without a
    leading array. *)
Definition bad_parameters (par : list param) : option exn :=
  match par with
  | [] => Some IndexError
  | PNum _ :: _ => Some AttributeError
  | PMat _ :: _ => None
  end.

(** A backend that measures 0 everywhere, with the shape pyQuil returns. *)
Definition zero_run (t : list event) (p : program) : list (list bool) :=
  replicate (Z.to_nat (num_shots p))
            (replicate (count_measures (instrs p)) false).

(** The digits of a number, most significant first. *)
Fixpoint uint_chars (u : Decimal.uint) : list N :=
  match u with
  | Decimal.Nil => []
  | Decimal.D0 u => 48%N :: uint_chars u
  | Decimal.D1 u => 49%N :: uint_chars u
  | Decimal.D2 u => 50%N :: uint_chars u
  | Decimal.D3 u => 51%N :: uint_chars u
  | Decimal.D4 u => 52%N :: uint_chars u
  | Decimal.D5 u => 53%N :: uint_chars u
  | Decimal.D6 u => 54%N :: uint_chars u
  | Decimal.D7 u => 55%N :: uint_chars u
  | Decimal.D8 u => 56%N :: uint_chars u
  | Decimal.D9 u => 57%N :: uint_chars u
  end.

(** The decimal numeral of [n]. *)
Definition decimal (n : nat) : list N := uint_chars (Nat.to_uint n).

(** The loop changes the program and the cache, nothing else, and asks
    only for eigendecompositions. *)
Definition loop_frame (w w' : world) : Prop :=
  shots (dev w') = shots (dev w)
  /\ active_reset (dev w') = active_reset (dev w)
  /\ qc_name (dev w') = qc_name (dev w)
  /\ state (dev w') = state (dev w)
  /\ exists Hs, trace w' = trace w ++ map EvEigh Hs.

(** The demo device with a Hermitian observable that has no matrix between
    two good ones. *)
Definition demo_bad_queue : world :=
  exec demo_eigh demo_get_qubits demo_compile demo_run
    (CSetObsQueue
       [demo_obs;
        {| name := "Hermitian"; wires := [1%nat]; parameters := [] |};
        demo_obs])
    demo_queued.

(** A Hermitian observable whose matrix is in the cache of [d]. *)
Definition hermitian_cached (d : QVMDevice) (e : observable) : Prop :=
  name e = "Hermitian"%string ->
  exists H rest, parameters e = PMat H :: rest
                 /\ is_Some (_eigs d !! concat H).

(** * Properties *)

(** ** Arithmetic on [Qc] *)

Lemma Qc_sum_app (l1 l2 : list Qc) :
  Qc_sum (l1 ++ l2) = (Qc_sum l1 + Qc_sum l2)%Qc.
Proof.
  induction l1 as [|x l1 IH]; simpl.
  - by rewrite Qcplus_0_l.
  - rewrite IH. ring.
Qed.

Lemma Qc_sum_div (l : list Z) (s : Qc) :
  Qc_sum (map (fun c => (Qc_of_Z c / s)%Qc) l)
  = (Qc_of_Z (foldr Z.add 0%Z l) / s)%Qc.
Proof.
  induction l as [|c l IH]; simpl.
  - rewrite Z2Qc_inj_0. unfold Qcdiv. ring.
  - rewrite IH, Z2Qc_inj_add. unfold Qcdiv. ring.
Qed.

Lemma Qc_of_Z_nonzero (z : Z) : z <> 0 -> Qc_of_Z z <> 0%Qc.
Proof. intros Hz E. apply Hz. apply Z2Qc_inj. by rewrite Z2Qc_inj_0. Qed.

Lemma Qc_div_same (x : Qc) : x <> 0%Qc -> (x / x)%Qc = 1%Qc.
Proof. intros Hx. unfold Qcdiv. by apply Qcmult_inv_r. Qed.

(** ** Reading the measurement state *)

Lemma mapM_res_Ok {A B} (f : A -> res B) (g : A -> B) (l : list A) :
  (forall a, a ∈ l -> f a = Ok (g a)) -> mapM_res f l = Ok (map g l).
Proof.
  induction l as [|a l IH]; intros Hf; simpl; [done|].
  rewrite (Hf a) by left. simpl. rewrite IH; [done|].
  intros b Hb. apply Hf. by right.
Qed.

Lemma state_get_Some d st w col :
  state d = Some st -> st !! w = Some col -> state_get d w = Ok col.
Proof. intros Hst Hw. unfold state_get. by rewrite Hst, Hw. Qed.

Lemma columns_Ok d st ws :
  state d = Some st ->
  (forall w, w ∈ ws -> is_Some (st !! w)) ->
  mapM_res (state_get d) ws = Ok (map (column_of st) ws).
Proof.
  intros Hst Hws. apply mapM_res_Ok. intros w Hw.
  destruct (Hws w Hw) as [col Hcol].
  unfold column_of. rewrite Hcol. simpl. by apply state_get_Some with st.
Qed.

(** ** The rows of the transposed array *)

Lemma zip_with_cons_rows (c : list bool) (f : nat -> list bool) m :
  length c = m ->
  zip_with cons c (map f (seq 0 m))
  = map (fun j => default false (c !! j) :: f j) (seq 0 m).
Proof.
  intros Hlen. apply list_eq. intros i.
  rewrite lookup_zip_with, !list_lookup_fmap.
  destruct (decide (i < m)%nat) as [Hi|Hi].
  - rewrite lookup_seq_lt by done. simpl.
    destruct (lookup_lt_is_Some_2 c i) as [b Hb]; [lia|].
    by rewrite Hb.
  - rewrite lookup_seq_ge by lia. simpl.
    rewrite (lookup_ge_None_2 c i) by lia. done.
Qed.

Lemma transpose_rows (cols : list (list bool)) m :
  cols <> [] ->
  Forall (fun c => length c = m) cols ->
  transpose cols = map (row_at cols) (seq 0 m).
Proof.
  induction cols as [|c cs IH]; intros Hne Hall; [done|].
  inversion Hall as [|? ? Hc Hcs]; subst.
  destruct cs as [|c' cs'].
  - simpl. apply list_eq. intros i. rewrite !list_lookup_fmap.
    destruct (decide (i < length c)%nat) as [Hi|Hi].
    + rewrite lookup_seq_lt by done. simpl.
      destruct (lookup_lt_is_Some_2 c i) as [b Hb]; [lia|].
      by rewrite Hb.
    + rewrite lookup_seq_ge by lia. simpl.
      by rewrite (lookup_ge_None_2 c i) by lia.
  - change (transpose (c :: c' :: cs'))
      with (zip_with cons c (transpose (c' :: cs'))).
    rewrite IH by done.
    by rewrite zip_with_cons_rows.
Qed.

(** ** The basis state of one shot *)

Lemma encode_msb_acc (bits : list bool) (a : Z) :
  foldl (fun acc (b : bool) => 2 * acc + Z.b2z b) a bits
  = a * 2 ^ Z.of_nat (length bits) + encode_msb bits.
Proof.
  unfold encode_msb. revert a.
  induction bits as [|b bits IH]; intros a; simpl foldl.
  - simpl. lia.
  - rewrite (IH (2 * a + Z.b2z b)), (IH (2 * 0 + Z.b2z b)).
    rewrite length_cons, Nat2Z.inj_succ, Z.pow_succ_r by lia. lia.
Qed.

Lemma encode_msb_cons (b : bool) (bits : list bool) :
  encode_msb (b :: bits)
  = Z.b2z b * 2 ^ Z.of_nat (length bits) + encode_msb bits.
Proof.
  unfold encode_msb at 1. simpl foldl.
  rewrite encode_msb_acc. lia.
Qed.

Lemma encode_msb_range (bits : list bool) :
  0 <= encode_msb bits < 2 ^ Z.of_nat (length bits).
Proof.
  induction bits as [|b bits IH].
  - unfold encode_msb. simpl. lia.
  - rewrite encode_msb_cons, length_cons, Nat2Z.inj_succ, Z.pow_succ_r by lia.
    destruct b; simpl Z.b2z; lia.
Qed.

Lemma basis_weights_S (n : nat) :
  basis_weights (S n) = 2 ^ Z.of_nat n :: basis_weights n.
Proof.
  unfold basis_weights. rewrite seq_S, rev_app_distr. done.
Qed.

Lemma cb_of_encode (n : nat) (i : list bool) :
  length i = n -> cb_of n i = encode_msb i.
Proof.
  revert n. induction i as [|b i IH]; intros n Hn; simpl in Hn; subst n.
  - done.
  - unfold cb_of. rewrite basis_weights_S. simpl.
    fold (cb_of (length i) i). rewrite IH by done.
    rewrite encode_msb_cons. lia.
Qed.

(** ** Tallying *)

Lemma tally_tallies (N : nat) (c : nat -> Z) (cb : Z) :
  0 <= cb < Z.of_nat N ->
  tally cb (tallies N c)
  = Ok (tallies N (fun k => c k + (if decide (Z.of_nat k = cb) then 1 else 0))).
Proof.
  intros Hcb. unfold tally, tallies.
  rewrite length_map, length_seq.
  rewrite decide_True by done. f_equal.
  apply list_eq. intros i.
  rewrite list_lookup_fmap.
  destruct (decide (i = Z.to_nat cb)) as [->|Hi].
  - rewrite list_lookup_alter_eq, list_lookup_fmap.
    rewrite lookup_seq_lt by lia. simpl.
    rewrite decide_True by lia. done.
  - rewrite list_lookup_alter_ne by done. rewrite list_lookup_fmap.
    destruct (decide (i < N)%nat).
    + rewrite lookup_seq_lt by lia. simpl.
      rewrite decide_False by lia. do 2 f_equal. lia.
    + by rewrite lookup_seq_ge by lia.
Qed.

Lemma tallies_ext (N : nat) (c c' : nat -> Z) :
  (forall k, (k < N)%nat -> c k = c' k) -> tallies N c = tallies N c'.
Proof.
  intros H. unfold tallies. apply map_ext_in. intros k Hk.
  apply in_seq in Hk. rewrite H by lia. done.
Qed.

Lemma tally_all_tallies (n N : nat) (rows : list (list bool)) (c : nat -> Z) :
  N = (2 ^ n)%nat ->
  Forall (fun i => length i = n) rows ->
  tally_all n rows (tallies N c)
  = Ok (tallies N (fun k => c k + count_rows rows k)).
Proof.
  intros HN. revert c. induction rows as [|i rows IH]; intros c Hall.
  - simpl. f_equal. apply tallies_ext. intros k _.
    unfold count_rows. simpl. lia.
  - inversion Hall as [|? ? Hi Hrows]; subst.
    simpl tally_all.
    pose proof (encode_msb_range i) as Hr.
    rewrite cb_of_encode by done.
    rewrite tally_tallies.
    2:{ rewrite Nat2Z.inj_pow. simpl Z.of_nat. lia. }
    simpl. rewrite IH by done. f_equal.
    apply tallies_ext. intros k _. unfold count_rows.
    rewrite filter_cons. destruct (decide (encode_msb i = Z.of_nat k)).
    + rewrite decide_True by done. rewrite length_cons. lia.
    + rewrite decide_False by (intros E; congruence). lia.
Qed.

(** ** Sorting by the first column *)

Lemma insert_row_head (r : Z * Z) (l : list (Z * Z)) :
  (forall r', head l = Some r' -> r.1 <= r'.1) -> insert_row r l = r :: l.
Proof.
  destruct l as [|r' l]; intros H; simpl; [done|].
  rewrite decide_True; [done|]. by apply H.
Qed.

Lemma sort_rows_tallies_from (s N : nat) (c : nat -> Z) :
  sort_rows (map (fun k => (Z.of_nat k, c k)) (seq s N))
  = map (fun k => (Z.of_nat k, c k)) (seq s N).
Proof.
  revert s. induction N as [|N IH]; intros s; [done|].
  simpl. unfold sort_rows in *. simpl. rewrite IH.
  apply insert_row_head. intros r'.
  destruct N; simpl; [done|]. intros [= <-]. simpl. lia.
Qed.

Lemma sort_rows_tallies (N : nat) (c : nat -> Z) :
  sort_rows (tallies N c) = tallies N c.
Proof. apply sort_rows_tallies_from. Qed.

(** ** The tallies add up to the number of shots *)

Lemma sum_pointwise (f g : nat -> Z) (l : list nat) :
  foldr Z.add 0 (map (fun k => f k + g k) l)
  = foldr Z.add 0 (map f l) + foldr Z.add 0 (map g l).
Proof. induction l as [|k l IH]; simpl; lia. Qed.

Lemma sum_indicator (v : Z) (s N : nat) :
  foldr Z.add 0
    (map (fun k => if decide (v = Z.of_nat k) then 1 else 0) (seq s N))
  = if decide (Z.of_nat s <= v < Z.of_nat (s + N)) then 1 else 0.
Proof.
  revert s. induction N as [|N IH]; intros s; simpl.
  - rewrite decide_False by lia. done.
  - rewrite IH. repeat case_decide; lia.
Qed.

Lemma sum_count_rows (N : nat) (rows : list (list bool)) :
  Forall (fun i => 0 <= encode_msb i < Z.of_nat N) rows ->
  foldr Z.add 0 (map (count_rows rows) (seq 0 N)) = Z.of_nat (length rows).
Proof.
  induction rows as [|i rows IH]; intros Hall.
  - unfold count_rows. simpl. induction (seq 0 N); simpl; lia.
  - inversion Hall as [|? ? Hi Hrows]; subst.
    rewrite (map_ext (count_rows (i :: rows))
               (fun k => (if decide (encode_msb i = Z.of_nat k) then 1 else 0)
                         + count_rows rows k)).
    + rewrite sum_pointwise, IH by done. rewrite sum_indicator.
      rewrite decide_True by lia. rewrite length_cons. lia.
    + intros k. unfold count_rows. rewrite filter_cons.
      case_decide; rewrite ?length_cons; lia.
Qed.

Lemma length_filter_map {A B} (f : A -> B) (P : B -> Prop)
    `{forall b, Decision (P b)} (l : list A) :
  length (filter P (map f l)) = length (filter (fun a => P (f a)) l).
Proof.
  induction l as [|a l IH]; [done|].
  simpl map. rewrite !filter_cons.
  destruct (decide (P (f a))); simpl; by rewrite IH.
Qed.

(** ** [probabilities] against the measurement state *)

Lemma row_at_columns st ws j :
  row_at (map (column_of st) ws) j = shot_bits st ws j.
Proof. unfold row_at, shot_bits, bit_at. by rewrite map_map. Qed.

Lemma count_rows_shots st ws m k :
  count_rows (map (row_at (map (column_of st) ws)) (seq 0 m)) k
  = shots_encoding st ws m k.
Proof.
  unfold count_rows, shots_encoding. f_equal.
  rewrite length_filter_map.
  induction (seq 0 m) as [|j l IH]; [done|].
  rewrite !filter_cons, row_at_columns.
  destruct (decide (encode_msb (shot_bits st ws j) = Z.of_nat k));
    simpl; by rewrite IH.
Qed.

(** What [probabilities] computes on a measured state, in closed form. *)
Lemma probabilities_closed_form d st ws :
  ws <> [] ->
  state d = Some st ->
  (forall w, w ∈ ws ->
     exists col, st !! w = Some col /\ Z.of_nat (length col) = shots d) ->
  probabilities d ws
  = Ok (map (fun k => (Qc_of_Z (shots_encoding st ws (Z.to_nat (shots d)) k)
                       / Qc_of_Z (shots d))%Qc)
            (seq 0 (2 ^ length ws))).
Proof.
  intros Hne Hst Hws. unfold probabilities.
  rewrite (columns_Ok d st ws Hst).
  2:{ intros w Hw. destruct (Hws w Hw) as (col & -> & _). eauto. }
  simpl.
  rewrite (transpose_rows _ (Z.to_nat (shots d))).
  2:{ by destruct ws. }
  2:{ rewrite Forall_fmap. apply list.Forall_forall. intros w Hw.
      destruct (Hws w Hw) as (col & Hcol & Hlen).
      simpl. unfold column_of. rewrite Hcol. simpl. lia. }
  fold (tallies (2 ^ length ws) (fun _ => 0)).
  rewrite (tally_all_tallies (length ws) _ _ _ eq_refl).
  2:{ rewrite Forall_fmap. apply list.Forall_forall. intros j _.
      simpl. unfold row_at. by rewrite !length_map. }
  simpl. rewrite sort_rows_tallies. f_equal.
  unfold tallies. rewrite !map_map. apply map_ext. intros k. simpl.
  by rewrite count_rows_shots.
Qed.

Lemma sum_shots_encoding st ws m :
  foldr Z.add 0 (map (shots_encoding st ws m) (seq 0 (2 ^ length ws)))
  = Z.of_nat m.
Proof.
  transitivity
    (foldr Z.add 0
       (map (count_rows (map (row_at (map (column_of st) ws)) (seq 0 m)))
            (seq 0 (2 ^ length ws)))).
  { f_equal. apply map_ext. intros k. symmetry. apply count_rows_shots. }
  rewrite sum_count_rows.
  - by rewrite length_map, length_seq.
  - rewrite Forall_fmap. apply list.Forall_forall. intros j _. simpl.
    pose proof (encode_msb_range (row_at (map (column_of st) ws) j)) as Hr.
    unfold row_at in Hr at 3. rewrite !length_map in Hr.
    rewrite Nat2Z.inj_pow. simpl Z.of_nat. lia.
Qed.

(** C2: on a non-empty list of N wires, each measured in [shots] shots,
    [probabilities] returns a vector of length 2^N whose entry k is the
    number of shots whose bits (first listed wire most significant) encode
    k, divided by the shot count; the entries sum to 1. *)
Theorem probabilities_spec d st ws :
  ws <> [] ->
  state d = Some st ->
  0 < shots d ->
  (forall w, w ∈ ws ->
     exists col, st !! w = Some col /\ Z.of_nat (length col) = shots d) ->
  exists ps,
    probabilities d ws = Ok ps
    /\ length ps = (2 ^ length ws)%nat
    /\ (forall k, (k < 2 ^ length ws)%nat ->
          ps !! k = Some (Qc_of_Z (shots_encoding st ws (Z.to_nat (shots d)) k)
                          / Qc_of_Z (shots d))%Qc)
    /\ Qc_sum ps = 1%Qc.
Proof.
  intros Hne Hst Hpos Hws.
  eexists. split; [by apply (probabilities_closed_form d st ws)|].
  split; [by rewrite length_map, length_seq|]. split.
  - intros k Hk. rewrite list_lookup_fmap, lookup_seq_lt by done. done.
  - rewrite <- (map_map (shots_encoding st ws (Z.to_nat (shots d)))
                        (fun c => (Qc_of_Z c / Qc_of_Z (shots d))%Qc)).
    rewrite Qc_sum_div, sum_shots_encoding, Z2Nat.id by lia.
    apply Qc_div_same, Qc_of_Z_nonzero. lia.
Qed.

Lemma probabilities_spec_witness :
  exists ps,
    probabilities measured_dev [0%nat; 1%nat] = Ok ps
    /\ length ps = 4%nat
    /\ (forall k, (k < 4)%nat ->
          ps !! k
          = Some (Qc_of_Z
                    (shots_encoding measured_state [0%nat; 1%nat] 4 k)
                  / Qc_of_Z 4)%Qc)
    /\ Qc_sum ps = 1%Qc.
Proof.
  apply (probabilities_spec measured_dev measured_state [0%nat; 1%nat]).
  - discriminate.
  - reflexivity.
  - reflexivity.
  - intros w Hw. apply list_elem_of_In in Hw.
    destruct Hw as [<-|[<-|[]]]; eexists; split; reflexivity.
Defined.

(** ** The mean and the variance of the +1/-1 values of a column *)

Lemma Qc_of_Z_neg1 : Qc_of_Z (-1) = (-1)%Qc.
Proof. apply Qc_is_canon. reflexivity. Qed.

Lemma pm1_value (b : bool) :
  (if b then (-1)%Qc else 1%Qc) = Qc_of_Z (1 - 2 * Z.b2z b).
Proof.
  destruct b; simpl Z.b2z.
  - symmetry. apply Qc_of_Z_neg1.
  - symmetry. apply Z2Qc_inj_1.
Qed.

Lemma Qc_sum_pm1 (col : list bool) : Qc_sum (pm1 col) = Qc_of_Z (sum_pm1 col).
Proof.
  unfold pm1, sum_pm1. induction col as [|b col IH]; simpl.
  - by rewrite Z2Qc_inj_0.
  - rewrite IH, Z2Qc_inj_add, pm1_value. done.
Qed.

Lemma np_mean_pm1 (col : list bool) : np_mean (pm1 col) = sample_mean_pm1 col.
Proof.
  unfold np_mean, sample_mean_pm1, Qc_len, pm1.
  rewrite length_map. fold (pm1 col). by rewrite Qc_sum_pm1.
Qed.

Lemma np_var_pm1 (col : list bool) : np_var (pm1 col) = sample_var_pm1 col.
Proof.
  unfold np_var, sample_var_pm1. rewrite np_mean_pm1.
  unfold np_mean, Qc_len. rewrite length_map. unfold pm1.
  rewrite length_map, map_map. do 2 f_equal.
  apply map_ext. intros b. by rewrite pm1_value.
Qed.

Lemma sum_pm1_all_false (col : list bool) :
  Forall (fun b => b = false) col -> sum_pm1 col = Z.of_nat (length col).
Proof.
  unfold sum_pm1. induction 1 as [|b col -> _ IH]; simpl; [done|].
  rewrite IH. lia.
Qed.

Lemma sum_pm1_all_true (col : list bool) :
  Forall (fun b => b = true) col -> sum_pm1 col = - Z.of_nat (length col).
Proof.
  unfold sum_pm1. induction 1 as [|b col -> _ IH]; simpl; [done|].
  rewrite IH. lia.
Qed.

Lemma length_nonzero {A} (l : list A) :
  l <> [] -> Qc_of_Z (Z.of_nat (length l)) <> 0%Qc.
Proof. intros Hl. apply Qc_of_Z_nonzero. destruct l; simpl; [done|lia]. Qed.

Lemma sum_sq_dev_pm1 (col : list bool) (m : Qc) :
  Qc_sum (map (fun b : bool =>
                 ((Qc_of_Z (1 - 2 * Z.b2z b) - m)
                  * (Qc_of_Z (1 - 2 * Z.b2z b) - m))%Qc)
              col)
  = (Qc_of_Z (Z.of_nat (length col)) - 2 * m * Qc_of_Z (sum_pm1 col)
     + Qc_of_Z (Z.of_nat (length col)) * m * m)%Qc.
Proof.
  induction col as [|b col IH].
  - change (0%Qc = (Qc_of_Z 0 - 2 * m * Qc_of_Z 0 + Qc_of_Z 0 * m * m)%Qc).
    rewrite Z2Qc_inj_0. ring.
  - change (sum_pm1 (b :: col)) with ((1 - 2 * Z.b2z b) + sum_pm1 col).
    rewrite length_cons, Nat2Z.inj_succ. unfold Z.succ.
    rewrite !Z2Qc_inj_add, Z2Qc_inj_1. simpl map. simpl Qc_sum. rewrite IH.
    rewrite <- pm1_value.
    generalize (Qc_of_Z (Z.of_nat (length col))) (Qc_of_Z (sum_pm1 col)).
    intros n s. destruct b; ring.
Qed.

(** The values are +1 and -1, so the variance is 1 minus the squared mean. *)
Lemma sample_var_pm1_closed (col : list bool) :
  col <> [] ->
  sample_var_pm1 col
  = (1 - sample_mean_pm1 col * sample_mean_pm1 col)%Qc.
Proof.
  intros Hne. unfold sample_var_pm1. rewrite sum_sq_dev_pm1.
  unfold sample_mean_pm1.
  pose proof (length_nonzero col Hne) as Hn. revert Hn.
  generalize (Qc_of_Z (Z.of_nat (length col))) (Qc_of_Z (sum_pm1 col)).
  intros n s Hn. field. exact Hn.
Qed.

(** ** [expval] on one wire *)

Lemma simple_not_special (observable : string) :
  observable ∈ simple_observables ->
  observable <> "Identity"%string /\ observable <> "Hermitian"%string.
Proof.
  unfold simple_observables. intros H.
  repeat (apply elem_of_cons in H as [->|H]; [split; discriminate|]).
  by apply elem_of_nil in H.
Qed.

(** C5: for a single-wire PauliX, PauliY, PauliZ or Hadamard observable,
    [expval] returns the sample mean of [1 - 2 * bit] over the wire's
    shots; it is 1 when every bit is 0 and -1 when every bit is 1. *)
Theorem expval_simple d st w col observable par :
  observable ∈ simple_observables ->
  state d = Some st ->
  st !! w = Some col ->
  col <> [] ->
  expval d observable [w] par = Ok (VNum (sample_mean_pm1 col))
  /\ (Forall (fun b => b = false) col -> sample_mean_pm1 col = 1%Qc)
  /\ (Forall (fun b => b = true) col -> sample_mean_pm1 col = (-1)%Qc).
Proof.
  intros Hobs Hst Hw Hne.
  destruct (simple_not_special _ Hobs) as [HnI HnH].
  split; [|split].
  - unfold expval. rewrite (state_get_Some d st w col Hst Hw). simpl.
    rewrite !decide_False by done. by rewrite np_mean_pm1.
  - intros H0. unfold sample_mean_pm1. rewrite sum_pm1_all_false by done.
    by apply Qc_div_same, length_nonzero.
  - intros H1. unfold sample_mean_pm1. rewrite sum_pm1_all_true by done.
    rewrite Z2Qc_inj_opp.
    pose proof (Qc_div_same _ (length_nonzero col Hne)) as Hdiv.
    unfold Qcdiv in *.
    replace (- Qc_of_Z (Z.of_nat (length col))
             * / Qc_of_Z (Z.of_nat (length col)))%Qc
      with (- (Qc_of_Z (Z.of_nat (length col))
               * / Qc_of_Z (Z.of_nat (length col))))%Qc by ring.
    by rewrite Hdiv.
Qed.

Lemma expval_simple_witness :
  expval measured_dev "PauliZ" [0%nat] []
  = Ok (VNum (sample_mean_pm1 [true; false; true; true]))
  /\ (Forall (fun b => b = false) [true; false; true; true] ->
      sample_mean_pm1 [true; false; true; true] = 1%Qc)
  /\ (Forall (fun b => b = true) [true; false; true; true] ->
      sample_mean_pm1 [true; false; true; true] = (-1)%Qc).
Proof.
  apply (expval_simple measured_dev measured_state
           0%nat [true; false; true; true] "PauliZ" []).
  - unfold simple_observables. do 2 right. left.
  - reflexivity.
  - reflexivity.
  - discriminate.
Defined.

(** ** [expval] of a Hermitian observable *)

Lemma measured_probabilities d st ws :
  ws <> [] -> measured d st ws ->
  exists ps, probabilities d ws = Ok ps /\ length ps = (2 ^ length ws)%nat.
Proof.
  intros Hne (Hst & Hpos & Hws).
  eexists. split; [by apply (probabilities_closed_form d st ws)|].
  by rewrite length_map, length_seq.
Qed.

(** C3: with the eigendecomposition of H cached, [expval] of "Hermitian"
    returns w0*p0 + w1*p1 on one wire, and the dot product of the cached
    eigenvalues with the probability vector on several wires. *)
Theorem expval_hermitian d st H rest e :
  _eigs d !! concat H = Some e ->
  (forall w col w0 w1,
     state d = Some st -> st !! w = Some col -> col <> [] ->
     eigval e !! 0%nat = Some w0 -> eigval e !! 1%nat = Some w1 ->
     expval d "Hermitian" [w] (PMat H :: rest)
     = Ok (VNum (w0 * p0_of col + w1 * p1_of col)%Qc))
  /\ (forall ws,
        (1 < length ws)%nat -> measured d st ws ->
        length (eigval e) = (2 ^ length ws)%nat ->
        exists ps,
          probabilities d ws = Ok ps
          /\ expval d "Hermitian" ws (PMat H :: rest)
             = Ok (VNum (Qc_sum (zip_with Qcmult (eigval e) ps)))).
Proof.
  intros Hc. split.
  - intros w col w0 w1 Hst Hw Hne H0 H1.
    unfold expval. rewrite (state_get_Some d st w col Hst Hw). simpl.
    unfold eigs_get. rewrite Hc. simpl. rewrite H0, H1. simpl.
    by rewrite np_mean_pm1.
  - intros ws Hlen Hm Hw.
    destruct (measured_probabilities d st ws) as (ps & Hps & Hpl);
      [by intros ->; simpl in Hlen; lia|done|].
    exists ps. split; [done|].
    unfold expval. destruct ws as [|w1 [|w2 ws']]; simpl in Hlen; [lia..|].
    rewrite Hps. simpl. unfold eigs_get. rewrite Hc. simpl.
    unfold dot. rewrite decide_True by congruence. done.
Qed.

Lemma measured_dev_measured ws :
  ws ⊆ [0%nat; 1%nat] -> measured measured_dev measured_state ws.
Proof.
  intros Hsub. split; [reflexivity|]. split; [reflexivity|].
  intros w Hw. apply Hsub, list_elem_of_In in Hw.
  destruct Hw as [<-|[<-|[]]]; eexists; split; reflexivity.
Defined.

Lemma expval_hermitian_witness :
  expval measured_dev "Hermitian" [0%nat] [PMat H2]
  = Ok (VNum (1 * p0_of [true; false; true; true]
              + 2 * p1_of [true; false; true; true])%Qc)
  /\ exists ps,
       probabilities measured_dev [0%nat; 1%nat] = Ok ps
       /\ expval measured_dev "Hermitian" [0%nat; 1%nat] [PMat H4]
          = Ok (VNum (Qc_sum (zip_with Qcmult [1; 1; 2; 2]%Qc ps))).
Proof.
  split.
  - apply (proj1 (expval_hermitian measured_dev measured_state H2 []
                    {| eigval := [1; 2]%Qc; eigvec := [] |} eq_refl));
      [reflexivity|reflexivity|discriminate|reflexivity|reflexivity].
  - apply (proj2 (expval_hermitian measured_dev measured_state H4 []
                    {| eigval := [1; 1; 2; 2]%Qc; eigvec := [] |} eq_refl)
             [0%nat; 1%nat]).
    + simpl. lia.
    + apply measured_dev_measured. done.
    + reflexivity.
Defined.

(** ** Several wires and a name other than "Hermitian" *)

(** C1 fails as stated: on two measured wires, [expval] of "PauliZ" raises
    nothing. *)
Lemma expval_two_wires_no_error :
  ~ (exists e, expval measured_dev "PauliZ" [0%nat; 1%nat] [] = Raise e)
  /\ ~ (exists e, var measured_dev "PauliZ" [0%nat; 1%nat] [] = Raise e).
Proof.
  split; intros [e He]; vm_compute in He; discriminate He.
Qed.

(** C1, amended: on several measured wires, for a name other than
    "Hermitian", [expval] and [var] raise no error and return [None]. *)
Theorem multi_wire_returns_none d st observable ws par :
  observable <> "Hermitian"%string ->
  (1 < length ws)%nat ->
  measured d st ws ->
  expval d observable ws par = Ok VNone
  /\ var d observable ws par = Ok VNone.
Proof.
  intros Hobs Hlen Hm.
  destruct (measured_probabilities d st ws) as (ps & Hps & _);
    [by intros ->; simpl in Hlen; lia|done|].
  destruct ws as [|w1 [|w2 ws']]; simpl in Hlen; [lia..|].
  unfold expval, var, var_multi. rewrite Hps. simpl.
  by destruct (decide (observable = "Hermitian"%string)).
Qed.

Lemma multi_wire_returns_none_witness :
  expval measured_dev "PauliZ" [0%nat; 1%nat] [] = Ok VNone
  /\ var measured_dev "PauliZ" [0%nat; 1%nat] [] = Ok VNone.
Proof.
  apply (multi_wire_returns_none measured_dev measured_state).
  - discriminate.
  - simpl. lia.
  - apply measured_dev_measured. done.
Defined.

(** ** [var] *)

Lemma second_moment_dot (w ps : list Qc) :
  length w = length ps ->
  second_moment w ps
  = Ok (Qc_sum (zip_with Qcmult (sq w) ps)
        - Qc_sum (zip_with Qcmult w ps) * Qc_sum (zip_with Qcmult w ps))%Qc.
Proof.
  intros Hlen. unfold second_moment, dot, sq.
  rewrite length_map, !decide_True by done. done.
Qed.

(** C4: [var] of Identity is 0 whatever the state; of a single-wire PauliX,
    PauliY, PauliZ or Hadamard it is the variance of the sample
    [1 - 2 * bit]; of a Hermitian observable with cached eigenvalues w and
    derived probabilities p it is (w^2 . p) - (w . p)^2. *)
Theorem var_spec :
  (forall d w par, var d "Identity" [w] par = Ok (VNum 0%Qc))
  /\ (forall d st w col observable par,
        observable ∈ simple_observables ->
        state d = Some st -> st !! w = Some col -> col <> [] ->
        var d observable [w] par = Ok (VNum (sample_var_pm1 col)))
  /\ (forall d st w col H rest e w0 w1,
        _eigs d !! concat H = Some e -> eigval e = [w0; w1] ->
        state d = Some st -> st !! w = Some col -> col <> [] ->
        var d "Hermitian" [w] (PMat H :: rest)
        = Ok (VNum ((w0 * w0 * p0_of col + w1 * w1 * p1_of col)
                    - (w0 * p0_of col + w1 * p1_of col)
                      * (w0 * p0_of col + w1 * p1_of col))%Qc))
  /\ (forall d st ws H rest e,
        _eigs d !! concat H = Some e ->
        (1 < length ws)%nat -> measured d st ws ->
        length (eigval e) = (2 ^ length ws)%nat ->
        exists ps,
          probabilities d ws = Ok ps
          /\ var d "Hermitian" ws (PMat H :: rest)
             = Ok (VNum (Qc_sum (zip_with Qcmult (sq (eigval e)) ps)
                         - Qc_sum (zip_with Qcmult (eigval e) ps)
                           * Qc_sum (zip_with Qcmult (eigval e) ps))%Qc)).
Proof.
  split; [|split; [|split]].
  - intros d w par. unfold var. by rewrite decide_True.
  - intros d st w col observable par Hobs Hst Hw Hne.
    destruct (simple_not_special _ Hobs) as [HnI HnH].
    unfold var. rewrite decide_False by done.
    rewrite (state_get_Some d st w col Hst Hw). simpl.
    rewrite decide_True by exact Hobs. by rewrite np_var_pm1.
  - intros d st w col H rest e w0 w1 Hc Hw01 Hst Hw Hne.
    unfold var. rewrite decide_False by discriminate.
    rewrite (state_get_Some d st w col Hst Hw). simpl.
    unfold eigs_get. rewrite Hc. simpl. rewrite Hw01.
    rewrite second_moment_dot by done. simpl.
    rewrite np_mean_pm1. fold (p0_of col) (p1_of col).
    do 2 f_equal. unfold Qc_sum. simpl. ring.
  - intros d st ws H rest e Hc Hlen Hm Hw.
    destruct (measured_probabilities d st ws) as (ps & Hps & Hpl);
      [by intros ->; simpl in Hlen; lia|done|].
    exists ps. split; [done|].
    destruct ws as [|w1 [|w2 ws']]; simpl in Hlen; [lia..|].
    unfold var, var_multi. rewrite Hps. simpl.
    unfold eigs_get. rewrite Hc. simpl.
    rewrite second_moment_dot by congruence. done.
Qed.

Lemma var_spec_witness :
  var measured_dev "Identity" [7%nat] [] = Ok (VNum 0%Qc)
  /\ var measured_dev "PauliX" [0%nat] []
     = Ok (VNum (sample_var_pm1 [true; false; true; true]))
  /\ var measured_dev "Hermitian" [0%nat] [PMat H2]
     = Ok (VNum ((1 * 1 * p0_of [true; false; true; true]
                  + 2 * 2 * p1_of [true; false; true; true])
                 - (1 * p0_of [true; false; true; true]
                    + 2 * p1_of [true; false; true; true])
                   * (1 * p0_of [true; false; true; true]
                      + 2 * p1_of [true; false; true; true]))%Qc)
  /\ exists ps,
       probabilities measured_dev [0%nat; 1%nat] = Ok ps
       /\ var measured_dev "Hermitian" [0%nat; 1%nat] [PMat H4]
          = Ok (VNum (Qc_sum (zip_with Qcmult (sq [1; 1; 2; 2]%Qc) ps)
                      - Qc_sum (zip_with Qcmult [1; 1; 2; 2]%Qc ps)
                        * Qc_sum (zip_with Qcmult [1; 1; 2; 2]%Qc ps))%Qc).
Proof.
  destruct var_spec as (HI & HP & H1 & HN).
  split; [apply HI|]. split; [|split].
  - apply (HP measured_dev measured_state);
      [unfold simple_observables; left|reflexivity|reflexivity|discriminate].
  - apply (H1 measured_dev measured_state 0%nat [true; false; true; true]
             H2 [] {| eigval := [1; 2]%Qc; eigvec := [] |});
      [reflexivity|reflexivity|reflexivity|reflexivity|discriminate].
  - apply (HN measured_dev measured_state [0%nat; 1%nat] H4 []
             {| eigval := [1; 1; 2; 2]%Qc; eigvec := [] |}).
    + reflexivity.
    + simpl. lia.
    + apply measured_dev_measured. done.
    + reflexivity.
Defined.

(** ** How [pre_measure] changes the device *)

Lemma add_gates_nil w : add_gates [] w = w.
Proof.
  destruct w as [[? ? ? ? ? ? [? ?] ?] ?]. unfold add_gates, with_prog. simpl.
  by rewrite app_nil_r.
Qed.

Lemma add_gates_add_gates g1 g2 w :
  add_gates g2 (add_gates g1 w) = add_gates (g1 ++ g2) w.
Proof. unfold add_gates, with_prog. simpl. by rewrite app_assoc. Qed.

Lemma apply_add_gates operation ws par w :
  apply operation ws par w = (Ok tt, add_gates [Gate operation par ws] w).
Proof. reflexivity. Qed.

Section PreMeasure.
Variable eigh : matrix -> option (list Qc * matrix).
Variable get_qubits : list instr -> list nat.
Variable qc_compile : program -> program.
Variable qc_run : list event -> program -> list (list bool).

Lemma rotate_rotated e w : rotated eigh e w (rotate eigh e w).
Proof.
  unfold rotate.
  destruct (decide (name e = "PauliX"%string)) as [HX|HX].
  { rewrite apply_add_gates. apply rotated_gates. by rewrite HX. }
  destruct (decide (name e = "PauliY"%string)) as [HY|HY].
  { change (rotated eigh e w
              (Ok tt, add_gates [Gate "Hadamard" [] (wires e)]
                        (add_gates [Gate "S" [] (wires e)]
                           (add_gates [Gate "PauliZ" [] (wires e)] w)))).
    rewrite !add_gates_add_gates. apply rotated_gates. by rewrite HY. }
  destruct (decide (name e = "Hadamard"%string)) as [HH|HH].
  { rewrite apply_add_gates. apply rotated_gates. by rewrite HH. }
  destruct (decide (name e = "Hermitian"%string)) as [HM|HM].
  2:{ rewrite <- (add_gates_nil w) at 2. by apply rotated_gates. }
  unfold mbind, M_bind, lift.
  destruct (parameters e !! 0%nat) as [[x|H]|] eqn:Hp; simpl;
    [by apply rotated_raise| |by apply rotated_raise].
  destruct (_eigs (dev w) !! concat H) as [c|] eqn:Hc; simpl.
  - by apply (rotated_hit eigh e w H).
  - destruct (eigh H) as [[vals U]|] eqn:HE; simpl.
    + by apply (rotated_miss eigh e w H vals U).
    + by apply rotated_raise.
Qed.

(** *** The cache only grows *)

Lemma cache_le_refl w : cache_le w w.
Proof. by intros k c. Qed.

Lemma cache_le_trans w1 w2 w3 :
  cache_le w1 w2 -> cache_le w2 w3 -> cache_le w1 w3.
Proof. intros H12 H23 k c Hk. by apply H23, H12. Qed.

Lemma eigh_keys_snoc t H : eigh_keys (t ++ [EvEigh H]) = eigh_keys t ++ [concat H].
Proof. unfold eigh_keys. by rewrite omap_app. Qed.

Lemma cache_le_learn H vals U w :
  _eigs (dev w) !! concat H = None -> cache_le w (learn H vals U w).
Proof.
  intros Hnone k c Hk. simpl.
  rewrite lookup_insert_ne; [done|]. intros <-. congruence.
Qed.

Lemma eigh_once_learn H vals U w :
  _eigs (dev w) !! concat H = None ->
  eigh_once w -> eigh_once (learn H vals U w).
Proof.
  intros Hnone [Hnd Hkeys]. split; simpl.
  - rewrite eigh_keys_snoc. apply list.NoDup_app. split; [done|]. split.
    + intros k Hk Hk'. apply list_elem_of_singleton in Hk' as ->.
      apply Hkeys in Hk. rewrite Hnone in Hk. by destruct Hk.
    + apply list.NoDup_singleton.
  - intros k. rewrite eigh_keys_snoc, elem_of_app, list_elem_of_singleton.
    rewrite Hkeys, lookup_insert_is_Some. split.
    + intros [Hs| ->]; [|by left].
      destruct (decide (concat H = k)); [by left|by right].
    + intros [<-|[_ Hs]]; [by right|by left].
Qed.

Lemma cache_same w w' :
  _eigs (dev w') = _eigs (dev w) ->
  eigh_keys (trace w') = eigh_keys (trace w) ->
  cache_le w w' /\ (eigh_once w -> eigh_once w').
Proof.
  intros He Ht. split.
  - intros k c. by rewrite He.
  - unfold eigh_once. by rewrite He, Ht.
Qed.

Lemma rotated_cache e w r w' :
  rotated eigh e w (r, w') ->
  cache_le w w' /\ (eigh_once w -> eigh_once w').
Proof.
  intros Hrot.
  inversion Hrot as [gs Hn|x Hn|H c Hn Hp Hc|H vals U Hn Hp Hc HE]; subst;
    try by apply cache_same.
  destruct (cache_same (learn H vals U w)
              (add_gates [unitary_gate U e] (learn H vals U w)))
    as [Hle Honce]; [done..|].
  split.
  - apply cache_le_trans with (learn H vals U w); [|done].
    by apply cache_le_learn.
  - intros Hw. by apply Honce, eigh_once_learn.
Qed.

Lemma rotate_all_cache q w r w' :
  mapM_ (rotate eigh) q w = (r, w') ->
  cache_le w w' /\ (eigh_once w -> eigh_once w').
Proof.
  revert w. induction q as [|e q IH]; intros w Hrun.
  - injection Hrun as <- <-. split; [apply cache_le_refl|done].
  - simpl in Hrun. unfold mbind, M_bind in Hrun.
    pose proof (rotate_rotated e w) as Hrot.
    destruct (rotate eigh e w) as [[[]|x] w1];
      destruct (rotated_cache e w _ w1 Hrot) as [Hle Honce].
    + destruct (IH w1 Hrun) as [Hle' Honce'].
      split; [by apply cache_le_trans with w1|auto].
    + injection Hrun as <- <-. done.
Qed.

(** *** The rest of [pre_measure] leaves the cache alone *)

Lemma instrs_foldl_inst p l :
  instrs (foldl prog_inst p l) = instrs p ++ l.
Proof.
  revert p. induction l as [|i l IH]; intros p; simpl.
  - by rewrite app_nil_r.
  - rewrite IH. simpl. by rewrite <- app_assoc.
Qed.

Lemma extract_state_frame i qs rows w r w' :
  extract_state i qs rows w = (r, w') ->
  trace w' = trace w /\ _eigs (dev w') = _eigs (dev w)
  /\ prog (dev w') = prog (dev w).
Proof.
  revert i w. induction qs as [|q qs IH]; intros i w Hrun.
  - by injection Hrun as <- <-.
  - simpl in Hrun. unfold mbind, M_bind, lift in Hrun.
    destruct (column rows i) as [col|x].
    + simpl in Hrun. by destruct (IH _ _ Hrun) as (-> & -> & ->).
    + by injection Hrun as <- <-.
Qed.

Lemma run_program_frame d p w :
  exists bits t,
    run_program qc_compile qc_run d p w
    = (Ok bits, {| dev := dev w; trace := trace w ++ t |})
    /\ eigh_keys t = [].
Proof.
  unfold run_program. destruct (str_contains "pyqvm" (qc_name d)).
  - by exists (qc_run (trace w) p), [EvRun p].
  - exists (qc_run (trace w ++ [EvCompile p]) (qc_compile p)),
           [EvCompile p; EvRun (qc_compile p)].
    split; [|done]. unfold mbind, M_bind. simpl.
    by rewrite <- app_assoc.
Qed.

Lemma measure_and_run_frame w r w' :
  measure_and_run get_qubits qc_compile qc_run w = (r, w') ->
  eigh_keys (trace w') = eigh_keys (trace w)
  /\ _eigs (dev w') = _eigs (dev w)
  /\ instrs (prog (dev w'))
     = prologue (dev w) ++ instrs (prog (dev w))
       ++ measurements (get_qubits (prologue (dev w) ++ instrs (prog (dev w)))).
Proof.
  unfold measure_and_run. unfold mbind at 1 2 3, M_bind at 1 2 3. simpl.
  match goal with
  | |- context [run_program _ _ ?d ?p ?w0] =>
      destruct (run_program_frame d p w0) as (bits & t & -> & Ht)
  end.
  simpl. intros Hrun.
  apply extract_state_frame in Hrun as (-> & -> & ->). simpl.
  split; [|split; [done|]].
  - unfold eigh_keys in *. by rewrite omap_app, Ht, app_nil_r.
  - rewrite instrs_foldl_inst. simpl.
    unfold prologue, measurements.
    destruct (active_reset (dev w)); simpl; by rewrite <- ?app_assoc.
Qed.

(** *** A cached matrix is not diagonalised again *)

Lemma rotate_hit e w H rest c :
  name e = "Hermitian"%string ->
  parameters e = PMat H :: rest ->
  _eigs (dev w) !! concat H = Some c ->
  rotate eigh e w = (Ok tt, add_gates [unitary_gate (eigvec c) e] w).
Proof.
  intros Hn Hp Hc. unfold rotate. rewrite Hn. simpl.
  unfold mbind, M_bind, lift. rewrite Hp. simpl. by rewrite Hc.
Qed.

Lemma rotate_miss e w H rest vals U :
  name e = "Hermitian"%string ->
  parameters e = PMat H :: rest ->
  _eigs (dev w) !! concat H = None ->
  eigh H = Some (vals, U) ->
  rotate eigh e w
  = (Ok tt, add_gates [unitary_gate U e] (learn H vals U w)).
Proof.
  intros Hn Hp Hc HE. unfold rotate. rewrite Hn. simpl.
  unfold mbind, M_bind, lift. rewrite Hp. simpl. rewrite Hc. simpl.
  by rewrite HE.
Qed.

(** *** The life of a device *)

Lemma pre_measure_cache w r w' :
  pre_measure eigh get_qubits qc_compile qc_run w = (r, w') ->
  cache_le w w' /\ (eigh_once w -> eigh_once w').
Proof.
  unfold pre_measure. unfold mbind at 1 2, M_bind at 1 2. simpl.
  destruct (mapM_ (rotate eigh) (obs_queue (dev w)) w) as [[[]|x] w1] eqn:Hloop;
    destruct (rotate_all_cache _ _ _ _ Hloop) as [Hle Honce].
  - intros Hrun. apply measure_and_run_frame in Hrun as (Ht & He & _).
    destruct (cache_same w1 w' He Ht) as [Hle' Honce'].
    split; [by apply cache_le_trans with w1|auto].
  - by intros [= <- <-].
Qed.

Lemma exec_cache c w :
  cache_le w (exec eigh get_qubits qc_compile qc_run c w)
  /\ (eigh_once w -> eigh_once (exec eigh get_qubits qc_compile qc_run c w)).
Proof.
  destruct c; simpl; try by apply cache_same.
  destruct (pre_measure eigh get_qubits qc_compile qc_run w) as [r w'] eqn:Hrun.
  simpl. by apply pre_measure_cache with r.
Qed.

Lemma exec_all_cache cs w :
  cache_le w (exec_all eigh get_qubits qc_compile qc_run cs w)
  /\ (eigh_once w
      -> eigh_once (exec_all eigh get_qubits qc_compile qc_run cs w)).
Proof.
  revert w. induction cs as [|c cs IH]; intros w.
  - split; [apply cache_le_refl|done].
  - simpl. destruct (exec_cache c w) as [Hle Honce].
    destruct (IH (exec eigh get_qubits qc_compile qc_run c w)) as [Hle' Honce'].
    split; [by eapply cache_le_trans|auto].
Qed.

Lemma init_empty_cache py device n d :
  init py device n = Ok d -> _eigs d = ∅.
Proof.
  unfold init. destruct (decide (n <= 0)); [done|].
  destruct device as [g|s|]; simpl; [| |done].
  - destruct (forest_init py _ n); simpl; [done|].
    destruct (get_qvm_with_topology py g); simpl; [|done].
    by intros [= <-].
  - destruct (re_search (unicode_digit py) s) as [ds|]; simpl; [|done].
    unfold py_int. destruct (int_limit py (length ds)); simpl; [done|].
    destruct (forest_init py _ n); simpl; [done|].
    destruct (get_qc py s); simpl; [|done].
    by intros [= <-].
Qed.

Lemma fresh_eigh_once d : _eigs d = ∅ -> eigh_once (fresh d).
Proof.
  intros He. split; simpl; [constructor|].
  intros k. rewrite He, lookup_empty. split.
  - by intros ?%elem_of_nil.
  - by intros [? ?].
Qed.

End PreMeasure.

(** ** The eigen-cache over the life of a device *)

(** C9: an entry of the eigen-cache, once written, stays as it is for the
    life of the device; no key is diagonalised twice; an observable whose
    matrix is cached gets the stored eigenvectors and changes neither the
    cache nor the list of eigendecompositions. *)
Theorem eigen_cache_invariant eigh get_qubits qc_compile qc_run py
    device n d cs cs' :
  init py device n = Ok d ->
  let w := exec_all eigh get_qubits qc_compile qc_run cs (fresh d) in
  let w' := exec_all eigh get_qubits qc_compile qc_run cs' w in
  (forall k c, _eigs (dev w) !! k = Some c -> _eigs (dev w') !! k = Some c)
  /\ NoDup (eigh_keys (trace w'))
  /\ (forall e H rest c,
        name e = "Hermitian"%string ->
        parameters e = PMat H :: rest ->
        _eigs (dev w) !! concat H = Some c ->
        rotate eigh e w
        = (Ok tt, add_gates [unitary_gate (eigvec c) e] w)).
Proof.
  intros Hinit w w'.
  pose proof (fresh_eigh_once d (init_empty_cache _ _ _ _ Hinit)) as H0.
  destruct (exec_all_cache eigh get_qubits qc_compile qc_run cs (fresh d))
    as [_ Hw].
  destruct (exec_all_cache eigh get_qubits qc_compile qc_run cs' w)
    as [Hle Hw'].
  split; [exact Hle|]. split.
  - apply Hw'. by apply Hw.
  - intros e H rest c. apply rotate_hit.
Qed.

Lemma eigen_cache_invariant_witness :
  exists d,
    init demo_host (DevStr (chars "2q-qvm")) 4 = Ok d
    /\ let w := demo_exec_all demo_calls (fresh d) in
       let w' := demo_exec_all demo_calls w in
       (forall k c, _eigs (dev w) !! k = Some c -> _eigs (dev w') !! k = Some c)
       /\ NoDup (eigh_keys (trace w'))
       /\ (forall e H rest c,
             name e = "Hermitian"%string ->
             parameters e = PMat H :: rest ->
             _eigs (dev w) !! concat H = Some c ->
             rotate demo_eigh e w
             = (Ok tt, add_gates [unitary_gate (eigvec c) e] w)).
Proof.
  eexists. split; [reflexivity|].
  apply (eigen_cache_invariant demo_eigh demo_get_qubits demo_compile demo_run
           demo_host (DevStr (chars "2q-qvm")) 4 _ demo_calls demo_calls).
  reflexivity.
Defined.

(** The demo device does diagonalise [H2] once, in the first evaluation. *)
Example demo_eigh_once :
  forall d, init demo_host (DevStr (chars "2q-qvm")) 4 = Ok d ->
  eigh_keys (trace (demo_exec_all (demo_calls ++ demo_calls) (fresh d)))
  = [concat H2].
Proof. intros d [= <-]. vm_compute. reflexivity. Qed.

(** ** [expval] and [var] read the cache without a guard *)

Lemma expval_hermitian_needs_cache d ws H rest v :
  expval d "Hermitian" ws (PMat H :: rest) = Ok v ->
  is_Some (_eigs d !! concat H).
Proof.
  intros Hok.
  destruct (_eigs d !! concat H) as [c|] eqn:Hc; [by eauto|].
  exfalso. revert Hok. unfold expval, eigs_get.
  destruct ws as [|w0 [|w1 ws']]; simpl.
  - destruct (probabilities d []); simpl; rewrite ?Hc; simpl; discriminate.
  - destruct (state_get d w0); simpl; rewrite ?Hc; simpl; discriminate.
  - destruct (probabilities d (w0 :: w1 :: ws')); simpl; rewrite ?Hc; simpl;
      discriminate.
Qed.

Lemma var_hermitian_needs_cache d ws H rest v :
  var d "Hermitian" ws (PMat H :: rest) = Ok v ->
  is_Some (_eigs d !! concat H).
Proof.
  intros Hok.
  destruct (_eigs d !! concat H) as [c|] eqn:Hc; [by eauto|].
  exfalso. revert Hok. unfold var, var_multi, eigs_get.
  destruct ws as [|w0 [|w1 ws']]; simpl.
  - destruct (probabilities d []); simpl; rewrite ?Hc; simpl; discriminate.
  - destruct (state_get d w0); simpl; rewrite ?Hc; simpl; discriminate.
  - destruct (probabilities d (w0 :: w1 :: ws')); simpl; rewrite ?Hc; simpl;
      discriminate.
Qed.

(** C10: [expval] and [var] of "Hermitian" look the matrix up in the
    eigen-cache and never diagonalise.  They return a value only if the key
    is cached, which on a device built by [init] means that [pre_measure]
    has diagonalised a matrix with this key; when the key is absent, the
    call on measured wires raises the [KeyError] of the lookup, and the
    cache and the list of eigendecompositions stay as they were. *)
Theorem hermitian_unguarded_lookup eigh get_qubits qc_compile qc_run :
  (forall d ws H rest v,
     expval d "Hermitian" ws (PMat H :: rest) = Ok v
     \/ var d "Hermitian" ws (PMat H :: rest) = Ok v ->
     is_Some (_eigs d !! concat H))
  /\ (forall py device n d cs ws H rest v,
        init py device n = Ok d ->
        let w := exec_all eigh get_qubits qc_compile qc_run cs (fresh d) in
        expval (dev w) "Hermitian" ws (PMat H :: rest) = Ok v
        \/ var (dev w) "Hermitian" ws (PMat H :: rest) = Ok v ->
        concat H ∈ eigh_keys (trace w))
  /\ (forall d st ws H rest,
        ws <> [] -> measured d st ws ->
        _eigs d !! concat H = None ->
        expval d "Hermitian" ws (PMat H :: rest)
        = Raise (KeyError_eigs (concat H))
        /\ var d "Hermitian" ws (PMat H :: rest)
           = Raise (KeyError_eigs (concat H)))
  /\ (forall w ws par,
        exec eigh get_qubits qc_compile qc_run (CExpval "Hermitian" ws par) w = w
        /\ exec eigh get_qubits qc_compile qc_run (CVar "Hermitian" ws par) w = w).
Proof.
  assert (forall d ws H rest v,
     expval d "Hermitian" ws (PMat H :: rest) = Ok v
     \/ var d "Hermitian" ws (PMat H :: rest) = Ok v ->
     is_Some (_eigs d !! concat H)) as Hneeds.
  { intros d ws H rest v [He|Hv].
    - by apply expval_hermitian_needs_cache in He.
    - by apply var_hermitian_needs_cache in Hv. }
  split; [exact Hneeds|]. split; [|split].
  - intros py device n d cs ws H rest v Hinit w Hok.
    pose proof (fresh_eigh_once d (init_empty_cache _ _ _ _ Hinit)) as H0.
    destruct (exec_all_cache eigh get_qubits qc_compile qc_run cs (fresh d))
      as [_ Hw].
    destruct (Hw H0) as [_ Hkeys]. apply Hkeys. by eapply Hneeds.
  - intros d st ws H rest Hne Hm Hnone.
    destruct (measured_probabilities d st ws Hne Hm) as (ps & Hps & _).
    destruct Hm as (Hst & Hpos & Hws).
    unfold expval, var, var_multi, eigs_get.
    destruct ws as [|w0 [|w1 ws']]; [done| |].
    + destruct (Hws w0) as (col & Hcol & _); [by left|].
      rewrite (state_get_Some d st w0 col Hst Hcol). simpl.
      by rewrite Hnone.
    + rewrite Hps. simpl. by rewrite Hnone.
  - done.
Qed.

Lemma hermitian_unguarded_lookup_witness :
  expval uncached_dev "Hermitian" [0%nat] [PMat H2]
  = Raise (KeyError_eigs (concat H2))
  /\ var uncached_dev "Hermitian" [0%nat; 1%nat] [PMat H4]
     = Raise (KeyError_eigs (concat H4))
  /\ is_Some (_eigs measured_dev !! concat H2)
  /\ (forall d, init demo_host (DevStr (chars "2q-qvm")) 4 = Ok d ->
      forall v,
        expval (dev (demo_exec_all demo_calls (fresh d))) "Hermitian"
          [0%nat] [PMat H2] = Ok v ->
        concat H2 ∈ eigh_keys (trace (demo_exec_all demo_calls (fresh d)))).
Proof.
  destruct (hermitian_unguarded_lookup demo_eigh demo_get_qubits demo_compile
              demo_run) as (Hneeds & Hreach & Hraise & _).
  split; [|split; [|split]].
  - apply (Hraise uncached_dev measured_state [0%nat] H2 []);
      [discriminate| |reflexivity].
    split; [reflexivity|]. split; [reflexivity|].
    intros w Hw. apply list_elem_of_In in Hw.
    destruct Hw as [<-|[]]; eexists; split; reflexivity.
  - apply (Hraise uncached_dev measured_state [0%nat; 1%nat] H4 []);
      [discriminate| |reflexivity].
    split; [reflexivity|]. split; [reflexivity|].
    intros w Hw. apply list_elem_of_In in Hw.
    destruct Hw as [<-|[<-|[]]]; eexists; split; reflexivity.
  - apply (Hneeds measured_dev [0%nat] H2 []
             (VNum (1 * p0_of [true; false; true; true]
                    + 2 * p1_of [true; false; true; true])%Qc)).
    left. vm_compute. reflexivity.
  - intros d Hinit v Hok.
    apply (Hreach demo_host (DevStr (chars "2q-qvm")) 4 d demo_calls
             [0%nat] H2 [] v Hinit).
    by left.
Defined.

(** ** The basis rotations of [pre_measure] *)

Lemma length_concat_rows {A} (M : list (list A)) n :
  Forall (fun r => length r = n) M ->
  length (concat M) = (length M * n)%nat.
Proof.
  induction 1 as [|r M Hr _ IH]; simpl; [done|].
  rewrite length_app, IH, Hr. done.
Qed.

Lemma concat_rows_inj {A} (M1 M2 : list (list A)) n :
  (0 < n)%nat ->
  Forall (fun r => length r = n) M1 ->
  Forall (fun r => length r = n) M2 ->
  concat M1 = concat M2 -> M1 = M2.
Proof.
  intros Hn H1. revert M2.
  induction H1 as [|r1 M1 Hr1 _ IH]; intros M2 H2 Heq.
  - destruct H2 as [|r2 M2 Hr2 _]; [done|].
    simpl in Heq. destruct r2; simpl in *; [lia|done].
  - destruct H2 as [|r2 M2 Hr2 H2].
    + simpl in Heq. destruct r1; simpl in *; [lia|done].
    + simpl in Heq. apply app_inj_1 in Heq as [-> Heq]; [|congruence].
      f_equal. by apply IH.
Qed.

(** The flattened key tells square matrices apart. *)
Lemma square_concat_inj (M1 M2 : matrix) :
  square M1 -> square M2 -> concat M1 = concat M2 -> M1 = M2.
Proof.
  unfold square. intros H1 H2 Heq.
  assert (length M1 = length M2) as Hlen.
  { pose proof (f_equal length Heq) as Hl.
    rewrite (length_concat_rows M1 _ H1), (length_concat_rows M2 _ H2) in Hl.
    nia. }
  destruct M1 as [|r1 M1'].
  - by destruct M2.
  - apply (concat_rows_inj _ _ (length (r1 :: M1'))); simpl; [lia|done| |done].
    simpl in Hlen. by rewrite Hlen.
Qed.

Section Rotations.
Variable eigh : matrix -> option (list Qc * matrix).

Lemma rotate_simple e w :
  name e <> "Hermitian"%string ->
  rotate eigh e w = (Ok tt, add_gates (rotation_gates eigh e) w).
Proof.
  intros Hn. unfold rotate, rotation_gates.
  repeat case_decide; try done.
  - change ((Ok tt, add_gates [Gate "Hadamard" [] (wires e)]
                      (add_gates [Gate "S" [] (wires e)]
                         (add_gates [Gate "PauliZ" [] (wires e)] w)))
            = (Ok tt, add_gates [Gate "PauliZ" [] (wires e);
                                 Gate "S" [] (wires e);
                                 Gate "Hadamard" [] (wires e)] w)).
    by rewrite !add_gates_add_gates.
  - by rewrite add_gates_nil.
Qed.

Lemma rotate_hermitian e w :
  name e = "Hermitian"%string ->
  hermitian_ok eigh e -> cache_coherent eigh (dev w) ->
  exists w',
    rotate eigh e w = (Ok tt, add_gates (rotation_gates eigh e) w')
    /\ prog (dev w') = prog (dev w)
    /\ active_reset (dev w') = active_reset (dev w)
    /\ cache_coherent eigh (dev w').
Proof.
  intros Hn Hok Hcoh.
  destruct (Hok Hn) as (H & rest & vals & U & Hp & Hsq & HE).
  assert (rotation_gates eigh e = [unitary_gate U e]) as ->.
  { unfold rotation_gates. rewrite Hn, Hp, HE. done. }
  destruct (_eigs (dev w) !! concat H) as [c|] eqn:Hc.
  - exists w. rewrite (rotate_hit eigh e w H rest c Hn Hp Hc).
    destruct (Hcoh _ _ Hc) as (H' & Hsq' & Hk & HE').
    apply square_concat_inj in Hk; [|done..]. subst H'.
    rewrite HE in HE'. injection HE' as _ ->. done.
  - exists (learn H vals U w).
    rewrite (rotate_miss eigh e w H rest vals U Hn Hp Hc HE).
    repeat split; try done.
    intros k c. simpl. rewrite lookup_insert_Some.
    intros [[<- <-]|[_ Hk]]; [|by apply Hcoh].
    by exists H.
Qed.

Lemma rotate_all_gates q w :
  Forall (hermitian_ok eigh) q -> cache_coherent eigh (dev w) ->
  exists w',
    mapM_ (rotate eigh) q w = (Ok tt, w')
    /\ instrs (prog (dev w'))
       = instrs (prog (dev w)) ++ flat_map (rotation_gates eigh) q
    /\ active_reset (dev w') = active_reset (dev w)
    /\ cache_coherent eigh (dev w').
Proof.
  intros Hq. revert w. induction Hq as [|e q He _ IH]; intros w Hcoh.
  - exists w. simpl. by rewrite app_nil_r.
  - assert (exists w1,
              rotate eigh e w = (Ok tt, add_gates (rotation_gates eigh e) w1)
              /\ prog (dev w1) = prog (dev w)
              /\ active_reset (dev w1) = active_reset (dev w)
              /\ cache_coherent eigh (dev w1)) as (w1 & Hrot & Hp & Ha & Hc).
    { destruct (decide (name e = "Hermitian"%string)) as [Hn|Hn].
      - by apply rotate_hermitian.
      - exists w. by rewrite rotate_simple. }
    destruct (IH (add_gates (rotation_gates eigh e) w1)) as (w' & Hrun & Hi & Ha' & Hc');
      [done|].
    exists w'. simpl. unfold mbind, M_bind. rewrite Hrot, Hrun.
    split; [done|]. split; [|split; [|done]].
    + rewrite Hi. simpl. rewrite Hp. by rewrite <- app_assoc.
    + by rewrite Ha'.
Qed.

End Rotations.

(** [pre_measure] keeps the cache coherent. *)
Lemma pre_measure_coherent eigh get_qubits qc_compile qc_run w :
  cache_coherent eigh (dev w) ->
  Forall (hermitian_ok eigh) (obs_queue (dev w)) ->
  cache_coherent eigh
    (dev (pre_measure eigh get_qubits qc_compile qc_run w).2).
Proof.
  intros Hcoh Hq.
  destruct (rotate_all_gates eigh (obs_queue (dev w)) w Hq Hcoh)
    as (w1 & Hloop & _ & _ & Hcoh1).
  unfold pre_measure. unfold mbind at 1 2, M_bind at 1 2. simpl.
  rewrite Hloop.
  destruct (measure_and_run get_qubits qc_compile qc_run w1) as [r w'] eqn:Hrun.
  apply measure_and_run_frame in Hrun as (_ & He & _).
  simpl. unfold cache_coherent. by rewrite He.
Qed.

(** The table of the rotations, name by name. *)
Lemma rotation_gates_table eigh ws par :
  rotation_gates eigh {| name := "Identity"; wires := ws; parameters := par |} = []
  /\ rotation_gates eigh {| name := "PauliZ"; wires := ws; parameters := par |} = []
  /\ rotation_gates eigh {| name := "PauliX"; wires := ws; parameters := par |}
     = [Gate "Hadamard" [] ws]
  /\ rotation_gates eigh {| name := "PauliY"; wires := ws; parameters := par |}
     = [Gate "PauliZ" [] ws; Gate "S" [] ws; Gate "Hadamard" [] ws]
  /\ rotation_gates eigh {| name := "Hadamard"; wires := ws; parameters := par |}
     = [Gate "RY" [PNum neg_pi_over_4] ws]
  /\ (forall H rest vals U,
        par = PMat H :: rest -> eigh H = Some (vals, U) ->
        rotation_gates eigh
          {| name := "Hermitian"; wires := ws; parameters := par |}
        = [Gate "QubitUnitary" [PMat (conj_T U)] ws]).
Proof.
  repeat (split; [reflexivity|]).
  intros H rest vals U -> HE. unfold rotation_gates. simpl. by rewrite HE.
Qed.

(** C6: [pre_measure] appends to the program, before the measurements, the
    basis rotation of every observable of the queue, in the order of the
    queue: nothing for Identity and PauliZ, Hadamard for PauliX, PauliZ, S
    and Hadamard for PauliY, RY(-pi/4) for Hadamard, and for a Hermitian
    matrix H the conjugate transpose of the eigenvector matrix of H as a
    QubitUnitary on the wires of the observable. *)
Theorem pre_measure_rotations eigh get_qubits qc_compile qc_run w :
  cache_coherent eigh (dev w) ->
  Forall (hermitian_ok eigh) (obs_queue (dev w)) ->
  exists qubits,
    instrs (prog (dev (pre_measure eigh get_qubits qc_compile qc_run w).2))
    = prologue (dev w) ++ instrs (prog (dev w))
      ++ flat_map (rotation_gates eigh) (obs_queue (dev w))
      ++ measurements qubits.
Proof.
  intros Hcoh Hq.
  destruct (rotate_all_gates eigh (obs_queue (dev w)) w Hq Hcoh)
    as (w1 & Hloop & Hi & Ha & _).
  unfold pre_measure. unfold mbind at 1 2, M_bind at 1 2. simpl.
  rewrite Hloop.
  destruct (measure_and_run get_qubits qc_compile qc_run w1) as [r w'] eqn:Hrun.
  apply measure_and_run_frame in Hrun as (_ & _ & Hp).
  eexists. simpl. rewrite Hp, Hi.
  unfold prologue. rewrite Ha. by rewrite <- !app_assoc.
Qed.

Lemma demo_queued_ok :
  cache_coherent demo_eigh (dev demo_queued)
  /\ Forall (hermitian_ok demo_eigh) (obs_queue (dev demo_queued)).
Proof.
  split.
  - intros k c Hk. vm_compute in Hk. discriminate Hk.
  - repeat constructor; intros Hn; try discriminate Hn.
    exists H2, [], [1; 2]%Qc, [[(1, 0); (0, 0)]; [(0, 0); (1, 0)]]%Qc.
    split; [reflexivity|]. split; [repeat constructor|].
    vm_compute. reflexivity.
Qed.

Lemma demo_measured_ok :
  cache_coherent demo_eigh (dev demo_measured)
  /\ Forall (hermitian_ok demo_eigh) (obs_queue (dev demo_measured)).
Proof.
  destruct demo_queued_ok as [Hcoh Hq]. split.
  - by apply pre_measure_coherent.
  - assert (obs_queue (dev demo_measured) = obs_queue (dev demo_queued)) as ->
      by (vm_compute; reflexivity).
    exact Hq.
Qed.

Lemma pre_measure_rotations_witness :
  (exists qubits,
     instrs (prog (dev (pre_measure demo_eigh demo_get_qubits demo_compile
                          demo_run demo_queued).2))
     = prologue (dev demo_queued) ++ instrs (prog (dev demo_queued))
       ++ flat_map (rotation_gates demo_eigh) (obs_queue (dev demo_queued))
       ++ measurements qubits)
  /\ (exists qubits,
        instrs (prog (dev (pre_measure demo_eigh demo_get_qubits demo_compile
                             demo_run demo_measured).2))
        = prologue (dev demo_measured) ++ instrs (prog (dev demo_measured))
          ++ flat_map (rotation_gates demo_eigh) (obs_queue (dev demo_measured))
          ++ measurements qubits).
Proof.
  split.
  - apply (pre_measure_rotations demo_eigh demo_get_qubits demo_compile
             demo_run demo_queued); apply demo_queued_ok.
  - apply (pre_measure_rotations demo_eigh demo_get_qubits demo_compile
             demo_run demo_measured); apply demo_measured_ok.
Defined.

(** The second evaluation finds [H2] in the cache. *)
Example demo_measured_cached :
  is_Some (_eigs (dev demo_measured) !! concat H2).
Proof. vm_compute. eauto. Qed.

(** What the demo program looks like after [pre_measure]. *)
Example demo_program :
  instrs (prog (dev (pre_measure demo_eigh demo_get_qubits demo_compile
                       demo_run demo_queued).2))
  = [PragmaInitialRewiringPartial;
     Gate "Hadamard" [] [0%nat];
     Gate "Hadamard" [] [1%nat];
     Gate "PauliZ" [] [0%nat]; Gate "S" [] [0%nat]; Gate "Hadamard" [] [0%nat];
     Gate "QubitUnitary"
       [PMat [[(1, 0); (0, 0)]; [(0, 0); (1, 0)]]%Qc] [0%nat];
     DECLARE "ro" "BIT" 2; MEASURE 1 0; MEASURE 0 1].
Proof. vm_compute. reflexivity. Qed.

(** ** Construction *)

Section Search.
Variable digit : N -> option Z.
Hypothesis Hletters : letters_q digit.

Lemma is_q_not_digit c : is_q c = true -> is_digit digit c = false.
Proof.
  unfold is_q, is_digit. rewrite orb_true_iff, !bool_decide_eq_true.
  destruct Hletters as [Hq HQ]. by intros [-> | ->]; rewrite ?Hq, ?HQ.
Qed.


Lemma occurrence_match_here ds c post :
  ds <> [] -> Forall (fun x => is_digit digit x = true) ds -> is_q c = true ->
  match_here digit (ds ++ c :: post) = Some ds.
Proof.
  intros Hne Hds Hq. induction Hds as [|d ds Hd Hds IH]; [done|].
  simpl. rewrite Hd. destruct ds as [|d' ds'].
  - simpl. by rewrite (is_q_not_digit c Hq), Hq.
  - by rewrite IH.
Qed.


Lemma re_search_cons a s :
  re_search digit (a :: s)
  = match match_here digit (a :: s) with
    | Some ds => Some ds
    | None => re_search digit s
    end.
Proof. reflexivity. Qed.





End Search.









Lemma demo_letters : letters_q demo_digit.
Proof. by split. Qed.




(** The names of the tests: two qubits, nine qubits, sixteen qubits; a
    name in Arabic-Indic digits. *)
Example init_wires :
  (num_wires <$> [init demo_host (DevStr (chars "2q-qvm")) 1024;
                  init demo_host (DevStr (chars "9q-square-qvm")) 1024;
                  init demo_host (DevStr (chars "Aspen-1-16Q-A")) 1024;
                  init demo_host
                    (DevGraph {| nodes := [0; 1]%nat; edges := [(0, 1)%nat] |})
                    1024;
                  init demo_host (DevStr ([1633; 1634] ++ chars "q-qvm")%N)
                    1024]
               ≫= fun r => match r with Ok d => [d] | Raise _ => [] end)
  = [2; 9; 16; 2; 12].
Proof. reflexivity. Qed.

(** ** [sample] *)

Lemma pm1_values (col : list bool) :
  Forall (fun v => v = 1%Qc \/ v = (-1)%Qc) (pm1 col).
Proof.
  unfold pm1. rewrite Forall_fmap. apply list.Forall_forall.
  intros [] _; simpl; auto.
Qed.

(** C8: [sample] raises for a count that is zero, negative or not an
    integer; for a positive integer count up to the shot count it returns
    that many values, each +1 or -1 for a Pauli observable and each a
    cached eigenvalue of the matrix for a Hermitian observable. *)
Theorem sample_spec :
  (forall d observable ws par n,
     not_positive_int n ->
     exists msg, sample d observable ws par n = Raise (ValueError msg))
  /\ (forall d st w col observable par z,
        observable ∈ simple_observables ->
        state d = Some st -> st !! w = Some col ->
        Z.of_nat (length col) = shots d ->
        0 < z <= shots d ->
        exists vs,
          sample d observable [w] par (PyInt z) = Ok vs
          /\ Z.of_nat (length vs) = z
          /\ Forall (fun v => v = 1%Qc \/ v = (-1)%Qc) vs)
  /\ (forall d st ws H rest e z,
        ws <> [] -> measured d st ws ->
        _eigs d !! concat H = Some e ->
        length (eigval e) = (2 ^ length ws)%nat ->
        0 < z <= shots d ->
        exists vs,
          sample d "Hermitian" ws (PMat H :: rest) (PyInt z) = Ok vs
          /\ Z.of_nat (length vs) = z
          /\ Forall (fun v => v ∈ eigval e) vs).
Proof.
  split; [|split].
  - intros d observable ws par [z|q] Hn; simpl in *.
    + repeat case_decide; eauto; exfalso; lia.
    + case_decide; eauto.
  - intros d st w col observable par z Hobs Hst Hw Hlen Hz.
    destruct (simple_not_special _ Hobs) as [_ HnH].
    unfold sample. rewrite !decide_False by (done || lia).
    rewrite (state_get_Some d st w col Hst Hw). simpl.
    eexists. split; [reflexivity|]. split.
    + rewrite length_take. unfold pm1. rewrite length_map. lia.
    + apply Forall_take, pm1_values.
  - intros d st ws H rest e z Hne (Hst & Hpos & Hws) Hc Hlen Hz.
    unfold sample. rewrite !decide_False by lia.
    rewrite decide_True by done. simpl.
    unfold eigs_get. rewrite Hc. simpl.
    rewrite (columns_Ok d st ws Hst).
    2:{ intros w Hw. destruct (Hws w Hw) as (col & -> & _). eauto. }
    simpl.
    rewrite (transpose_rows _ (Z.to_nat (shots d))); [|by destruct ws|].
    2:{ rewrite Forall_fmap. apply list.Forall_forall. intros w Hw.
        destruct (Hws w Hw) as (col & Hcol & Hl).
        simpl. unfold column_of. rewrite Hcol. simpl. lia. }
    rewrite (mapM_res_Ok _
               (fun i => default 0%Qc (eigval e !! Z.to_nat (encode_msb i)))).
    2:{ intros i Hi. apply list_elem_of_fmap in Hi as (j & -> & _).
        assert (length (row_at (map (column_of st) ws) j) = length ws) as Hrow.
        { unfold row_at. by rewrite !length_map. }
        rewrite cb_of_encode by done.
        pose proof (encode_msb_range (row_at (map (column_of st) ws) j)) as Hr.
        rewrite Hrow in Hr. rewrite decide_True by lia.
        destruct (lookup_lt_is_Some_2 (eigval e)
                    (Z.to_nat (encode_msb (row_at (map (column_of st) ws) j))))
          as [v Hv].
        { rewrite Hlen. apply Nat2Z.inj_lt.
          rewrite Z2Nat.id, Nat2Z.inj_pow by lia. simpl Z.of_nat. lia. }
        by rewrite Hv. }
    simpl. eexists. split; [reflexivity|]. split.
    + rewrite length_take, !length_map, length_seq. lia.
    + apply Forall_take. rewrite !Forall_fmap. apply list.Forall_forall.
      intros j _. simpl.
      pose proof (encode_msb_range (row_at (map (column_of st) ws) j)) as Hr.
      unfold row_at in Hr at 3. rewrite !length_map in Hr.
      destruct (lookup_lt_is_Some_2 (eigval e)
                  (Z.to_nat (encode_msb (row_at (map (column_of st) ws) j))))
        as [v Hv].
      { rewrite Hlen. apply Nat2Z.inj_lt.
        rewrite Z2Nat.id, Nat2Z.inj_pow by lia. simpl Z.of_nat. lia. }
      rewrite Hv. simpl. by apply list_elem_of_lookup_2 in Hv.
Qed.

Lemma sample_spec_witness :
  (exists msg, sample measured_dev "PauliZ" [0%nat] [] (PyInt 0)
               = Raise (ValueError msg))
  /\ (exists msg, sample measured_dev "PauliZ" [0%nat] [] (PyInt (-5))
                  = Raise (ValueError msg))
  /\ (exists msg, sample measured_dev "PauliZ" [0%nat] []
                    (PyFloat (Q2Qc (3 # 2)))
                  = Raise (ValueError msg))
  /\ (exists vs,
        sample measured_dev "PauliZ" [0%nat] [] (PyInt 3) = Ok vs
        /\ Z.of_nat (length vs) = 3
        /\ Forall (fun v => v = 1%Qc \/ v = (-1)%Qc) vs)
  /\ (exists vs,
        sample measured_dev "Hermitian" [0%nat; 1%nat] [PMat H4] (PyInt 4)
        = Ok vs
        /\ Z.of_nat (length vs) = 4
        /\ Forall (fun v => v ∈ [1; 1; 2; 2]%Qc) vs).
Proof.
  destruct sample_spec as (Hbad & Hpauli & Hherm).
  split; [|split; [|split; [|split]]].
  - apply Hbad. simpl. lia.
  - apply Hbad. simpl. lia.
  - apply Hbad. exact I.
  - apply (Hpauli measured_dev measured_state 0%nat [true; false; true; true]);
      [unfold simple_observables; do 2 right; left
      |reflexivity|reflexivity|reflexivity|simpl; lia].
  - apply (Hherm measured_dev measured_state [0%nat; 1%nat] H4 []
             {| eigval := [1; 1; 2; 2]%Qc; eigvec := [] |});
      [discriminate|apply measured_dev_measured; done
      |reflexivity|reflexivity|simpl; lia].
Defined.

(** * Further properties of the post-processing *)

(** ** Bounds on means and probabilities *)

Lemma Qc_of_Z_pos (n : Z) : 0 < n -> (0 < Qc_of_Z n)%Qc.
Proof.
  intros Hn. apply (proj1 (Z2Qc_inj_lt _ _)) in Hn.
  by rewrite Z2Qc_inj_0 in Hn.
Qed.

Lemma Qc_div_mono (x y n : Qc) :
  (0 < n)%Qc -> (x <= y)%Qc -> (x / n <= y / n)%Qc.
Proof.
  intros Hn Hxy. unfold Qcdiv. apply Qcmult_le_compat_r; [done|].
  by apply Qclt_le_weak, Qcinv_pos.
Qed.

Lemma Qc_of_Z_div_bounds (a lo hi n : Z) :
  0 < n -> lo * n <= a <= hi * n ->
  (Qc_of_Z lo <= Qc_of_Z a / Qc_of_Z n <= Qc_of_Z hi)%Qc.
Proof.
  intros Hn [Hlo Hhi].
  pose proof (Qc_of_Z_pos n Hn) as Hpos.
  assert (Qc_of_Z n <> 0%Qc) as Hnz by (by apply Qc_of_Z_nonzero; lia).
  rewrite <- (Qcdiv_mult_l (Qc_of_Z lo) (Qc_of_Z n) Hnz).
  rewrite <- (Qcdiv_mult_l (Qc_of_Z hi) (Qc_of_Z n) Hnz).
  rewrite <- !Z2Qc_inj_mul.
  split; apply Qc_div_mono; try done; by apply (proj1 (Z2Qc_inj_le _ _)).
Qed.

Lemma sum_pm1_bounds (col : list bool) :
  - Z.of_nat (length col) <= sum_pm1 col <= Z.of_nat (length col).
Proof.
  unfold sum_pm1. induction col as [|b col IH]; simpl; [lia|].
  destruct b; simpl Z.b2z; lia.
Qed.

Lemma sample_mean_pm1_bounds (col : list bool) :
  col <> [] -> (-1 <= sample_mean_pm1 col <= 1)%Qc.
Proof.
  intros Hne. unfold sample_mean_pm1.
  rewrite <- Qc_of_Z_neg1, <- Z2Qc_inj_1.
  apply Qc_of_Z_div_bounds.
  - destruct col; simpl; [done|lia].
  - pose proof (sum_pm1_bounds col). lia.
Qed.

Lemma Qc_half_nonneg (x : Qc) : (0 <= x)%Qc -> (0 <= x / 2)%Qc.
Proof.
  intros Hx. replace 0%Qc with (0 / 2)%Qc by (unfold Qcdiv; ring).
  apply Qc_div_mono; [|done].
  rewrite <- Z2Qc_inj_2. by apply Qc_of_Z_pos.
Qed.

Lemma p0_p1_facts (col : list bool) :
  col <> [] ->
  (p0_of col + p1_of col = 1)%Qc
  /\ (p0_of col - p1_of col = sample_mean_pm1 col)%Qc
  /\ (0 <= p0_of col)%Qc /\ (0 <= p1_of col)%Qc.
Proof.
  intros Hne. destruct (sample_mean_pm1_bounds col Hne) as [Hlo Hhi].
  unfold p0_of, p1_of. revert Hlo Hhi.
  generalize (sample_mean_pm1 col). intros m Hlo Hhi.
  split; [by field|]. split; [by field|]. split.
  - apply Qc_half_nonneg. apply Qcle_minus_iff in Hlo.
    replace (1 + m)%Qc with (m + - -1)%Qc by ring. done.
  - apply Qc_half_nonneg. apply Qcle_minus_iff in Hhi.
    replace (1 - m)%Qc with (1 + - m)%Qc by ring. done.
Qed.

(** ** [expval] and [var] on one wire: values and bounds *)

(** X1: on a measured wire [expval] of Identity is 1 (lines 186-188:
    p0 + p1). *)
Theorem expval_identity_one d st w col par :
  state d = Some st -> st !! w = Some col -> col <> [] ->
  expval d "Identity" [w] par = Ok (VNum 1%Qc).
Proof.
  intros Hst Hw Hne.
  unfold expval. rewrite (state_get_Some d st w col Hst Hw). simpl.
  rewrite np_mean_pm1. fold (p0_of col) (p1_of col).
  by destruct (p0_p1_facts col Hne) as (-> & _).
Qed.

Lemma expval_identity_one_witness :
  expval measured_dev "Identity" [1%nat] [] = Ok (VNum 1%Qc).
Proof.
  apply (expval_identity_one measured_dev measured_state 1%nat
           [false; false; true; true] []);
    [reflexivity|reflexivity|discriminate].
Defined.

(** X3: the expectation value of a single-wire PauliX, PauliY, PauliZ or
    Hadamard observable lies between -1 and 1. *)
Theorem expval_simple_bounded d st w col observable par :
  observable ∈ simple_observables ->
  state d = Some st -> st !! w = Some col -> col <> [] ->
  exists m, expval d observable [w] par = Ok (VNum m)
            /\ (-1 <= m <= 1)%Qc.
Proof.
  intros Hobs Hst Hw Hne.
  destruct (simple_not_special _ Hobs) as [HnI HnH].
  exists (sample_mean_pm1 col). split.
  - unfold expval. rewrite (state_get_Some d st w col Hst Hw). simpl.
    rewrite !decide_False by done. by rewrite np_mean_pm1.
  - by apply sample_mean_pm1_bounds.
Qed.

Lemma expval_simple_bounded_witness :
  exists m, expval measured_dev "Hadamard" [0%nat] [] = Ok (VNum m)
            /\ (-1 <= m <= 1)%Qc.
Proof.
  apply (expval_simple_bounded measured_dev measured_state 0%nat
           [true; false; true; true] "Hadamard" []);
    [unfold simple_observables; do 3 right; left
    |reflexivity|reflexivity|discriminate].
Defined.

(** X4: for these observables [var] returns the variance [np.var] of the
    samples +1 and -1, which is never negative. *)
Theorem var_simple_from_expval d st w col observable par :
  observable ∈ simple_observables ->
  state d = Some st -> st !! w = Some col -> col <> [] ->
  exists v,
    var d observable [w] par = Ok (VNum v)
    /\ v = sample_var_pm1 col
    /\ (0 <= v)%Qc.
Proof.
  intros Hobs Hst Hw Hne.
  destruct (simple_not_special _ Hobs) as [HnI HnH].
  exists (sample_var_pm1 col).
  split; [|split; [done|]].
  - unfold var. rewrite decide_False by done.
    rewrite (state_get_Some d st w col Hst Hw). simpl.
    rewrite decide_True by exact Hobs. by rewrite np_var_pm1.
  - rewrite sample_var_pm1_closed by done.
    destruct (sample_mean_pm1_bounds col Hne) as [Hlo Hhi].
    revert Hlo Hhi. generalize (sample_mean_pm1 col). intros m Hlo Hhi.
    apply (proj2 (Qcle_minus_iff _ _)).
    replace (1 - m * m + - 0)%Qc with ((1 + - m) * (m + - -1))%Qc by ring.
    apply Qcmult_nonneg_nonneg; by apply (proj1 (Qcle_minus_iff _ _)).
Qed.

Lemma var_simple_from_expval_witness :
  exists v,
    var measured_dev "PauliY" [0%nat] [] = Ok (VNum v)
    /\ v = sample_var_pm1 [true; false; true; true]
    /\ (0 <= v)%Qc.
Proof.
  apply (var_simple_from_expval measured_dev measured_state 0%nat
           [true; false; true; true] "PauliY" []);
    [unfold simple_observables; right; left
    |reflexivity|reflexivity|discriminate].
Defined.

(** ** One wire: [probabilities] counts the zeros and the ones *)

Lemma count_rows_single (col : list bool) :
  count_rows (map (fun b => [b]) col) 0 = zeros col
  /\ count_rows (map (fun b => [b]) col) 1
     = Z.of_nat (length col) - zeros col.
Proof.
  unfold count_rows, zeros. induction col as [|b col [IH0 IH1]]; [done|].
  simpl map. rewrite !filter_cons.
  change (encode_msb [b]) with (Z.b2z b).
  destruct b; simpl Z.b2z; repeat case_decide; try done;
    rewrite ?length_cons; lia.
Qed.

(** X2: on one measured wire [probabilities] returns two entries: the
    number of shots that measured 0, and the number of shots that measured
    1, each divided by the shot count. *)
Theorem probabilities_single_wire d st w col :
  measured d st [w] -> st !! w = Some col ->
  probabilities d [w]
  = Ok [(Qc_of_Z (zeros col) / Qc_of_Z (shots d))%Qc;
        (Qc_of_Z (shots d - zeros col) / Qc_of_Z (shots d))%Qc].
Proof.
  intros (Hst & Hpos & Hws) Hw.
  destruct (Hws w) as (col' & Hcol' & Hlen); [by left|].
  rewrite Hw in Hcol'. injection Hcol' as <-.
  assert (map (row_at (map (column_of st) [w])) (seq 0 (Z.to_nat (shots d)))
          = map (fun b => [b]) col) as Hrows.
  { change (map (column_of st) [w]) with [column_of st w].
    unfold column_of. rewrite Hw. simpl default.
    rewrite <- (transpose_rows [col]); [done|done|].
    constructor; [lia|constructor]. }
  rewrite (probabilities_closed_form d st [w]); [|done|done|done].
  change (seq 0 (2 ^ length [w])) with [0; 1]%nat. simpl map.
  rewrite <- !count_rows_shots, Hrows.
  destruct (count_rows_single col) as [-> ->].
  by rewrite Hlen.
Qed.

Lemma probabilities_single_wire_witness :
  probabilities measured_dev [0%nat]
  = Ok [(Qc_of_Z (zeros [true; false; true; true])
         / Qc_of_Z (shots measured_dev))%Qc;
        (Qc_of_Z (shots measured_dev - zeros [true; false; true; true])
         / Qc_of_Z (shots measured_dev))%Qc].
Proof.
  apply (probabilities_single_wire measured_dev measured_state 0%nat
           [true; false; true; true]); [|reflexivity].
  apply measured_dev_measured.
  intros w Hw. apply list_elem_of_singleton in Hw as ->. by left.
Defined.

(** ** [probabilities]: range, marginals, no wires *)

Lemma shots_encoding_bounds st ws m k :
  0 <= shots_encoding st ws m k <= Z.of_nat m.
Proof.
  unfold shots_encoding. split; [lia|].
  apply Nat2Z.inj_le.
  etrans; [apply length_filter|]. by rewrite length_seq.
Qed.

(** X7: every entry of the vector [probabilities] returns lies between 0
    and 1. *)
Theorem probabilities_in_unit_interval d st ws :
  ws <> [] -> measured d st ws ->
  exists ps, probabilities d ws = Ok ps
             /\ Forall (fun p => (0 <= p <= 1)%Qc) ps.
Proof.
  intros Hne (Hst & Hpos & Hws).
  eexists. split; [by apply (probabilities_closed_form d st ws)|].
  rewrite Forall_fmap. apply list.Forall_forall. intros k _. simpl.
  rewrite <- Z2Qc_inj_0, <- Z2Qc_inj_1 at 1.
  apply Qc_of_Z_div_bounds; [done|].
  pose proof (shots_encoding_bounds st ws (Z.to_nat (shots d)) k). lia.
Qed.

Lemma probabilities_in_unit_interval_witness :
  exists ps, probabilities measured_dev [1%nat; 0%nat] = Ok ps
             /\ Forall (fun p => (0 <= p <= 1)%Qc) ps.
Proof.
  apply (probabilities_in_unit_interval measured_dev measured_state
           [1%nat; 0%nat]); [discriminate|].
  apply measured_dev_measured.
  intros w Hw. apply list_elem_of_In in Hw.
  destruct Hw as [<-|[<-|[]]]; [by right; left|by left].
Defined.

Lemma encode_msb_snoc (bits : list bool) (b : bool) :
  encode_msb (bits ++ [b]) = 2 * encode_msb bits + Z.b2z b.
Proof. unfold encode_msb. by rewrite foldl_app. Qed.

Lemma shot_bits_snoc st ws w j :
  shot_bits st (ws ++ [w]) j = shot_bits st ws j ++ [bit_at st w j].
Proof. unfold shot_bits. by rewrite map_app. Qed.

Lemma shots_encoding_marginal st ws w m k :
  shots_encoding st ws m k
  = shots_encoding st (ws ++ [w]) m (2 * k)
    + shots_encoding st (ws ++ [w]) m (2 * k + 1).
Proof.
  unfold shots_encoding. induction (seq 0 m) as [|j l IH]; [done|].
  rewrite !filter_cons, shot_bits_snoc, encode_msb_snoc.
  destruct (bit_at st w j); simpl Z.b2z;
    repeat case_decide; rewrite ?length_cons; lia.
Qed.

(** X8: the wires that are not listed are traced out.  With one more
    wire listed last the vector has twice the length, and the tallies of
    its entries 2k and 2k+1, which differ in the bit of that wire, add up
    to the tally of entry k: the entries are a/shots and b/shots, and
    entry k of the shorter vector is (a+b)/shots. *)
Theorem probabilities_marginal d st ws w :
  ws <> [] -> measured d st (ws ++ [w]) ->
  exists ps ps',
    probabilities d ws = Ok ps
    /\ probabilities d (ws ++ [w]) = Ok ps'
    /\ length ps' = (2 * length ps)%nat
    /\ forall k, (k < length ps)%nat ->
         let n := Z.to_nat (shots d) in
         let a := shots_encoding st (ws ++ [w]) n (2 * k) in
         let b := shots_encoding st (ws ++ [w]) n (2 * k + 1) in
         ps' !! (2 * k)%nat = Some (Qc_of_Z a / Qc_of_Z (shots d))%Qc
         /\ ps' !! (2 * k + 1)%nat = Some (Qc_of_Z b / Qc_of_Z (shots d))%Qc
         /\ ps !! k = Some (Qc_of_Z (a + b) / Qc_of_Z (shots d))%Qc.
Proof.
  intros Hne (Hst & Hpos & Hws).
  assert (forall w', w' ∈ ws ->
            exists col, st !! w' = Some col
                        /\ Z.of_nat (length col) = shots d) as Hws'.
  { intros w' Hw'. apply Hws, elem_of_app. by left. }
  eexists _, _.
  split; [by apply (probabilities_closed_form d st ws)|].
  split; [apply (probabilities_closed_form d st (ws ++ [w])); try done;
          by destruct ws|].
  assert (2 ^ (length ws + 1) = 2 * 2 ^ length ws)%nat as Hpow
    by (rewrite Nat.add_1_r; apply Nat.pow_succ_r').
  rewrite !length_map, !length_seq, length_app. simpl length.
  rewrite Hpow. split; [done|].
  intros k Hk n a b.
  rewrite !list_lookup_fmap, !lookup_seq_lt by lia.
  simpl. split; [done|]. split; [done|]. do 3 f_equal.
  apply shots_encoding_marginal.
Qed.

Lemma probabilities_marginal_witness :
  exists ps ps',
    probabilities measured_dev [0%nat] = Ok ps
    /\ probabilities measured_dev ([0%nat] ++ [1%nat]) = Ok ps'
    /\ length ps' = (2 * length ps)%nat
    /\ forall k, (k < length ps)%nat ->
         let n := Z.to_nat (shots measured_dev) in
         let a := shots_encoding measured_state ([0%nat] ++ [1%nat]) n (2 * k) in
         let b :=
           shots_encoding measured_state ([0%nat] ++ [1%nat]) n (2 * k + 1) in
         ps' !! (2 * k)%nat
         = Some (Qc_of_Z a / Qc_of_Z (shots measured_dev))%Qc
         /\ ps' !! (2 * k + 1)%nat
            = Some (Qc_of_Z b / Qc_of_Z (shots measured_dev))%Qc
         /\ ps !! k = Some (Qc_of_Z (a + b) / Qc_of_Z (shots measured_dev))%Qc.
Proof.
  apply (probabilities_marginal measured_dev measured_state [0%nat] 1%nat);
    [discriminate|].
  apply measured_dev_measured. done.
Defined.

(** X9: with no wires listed, [probabilities] returns the one-entry vector
    [0] on every device, measured or not; so [expval] and [var] of a name
    other than "Hermitian" on no wires return [None]. *)
Theorem probabilities_no_wires d :
  probabilities d [] = Ok [0%Qc]
  /\ forall observable par,
       observable <> "Hermitian"%string ->
       expval d observable [] par = Ok VNone
       /\ var d observable [] par = Ok VNone.
Proof.
  assert (probabilities d [] = Ok [0%Qc]) as Hp.
  { unfold probabilities. simpl. do 2 f_equal.
    change (Qc_of_Z 0 / Qc_of_Z (shots d) = 0)%Qc.
    rewrite Z2Qc_inj_0. unfold Qcdiv. ring. }
  split; [done|]. intros observable par Hobs.
  unfold expval, var, var_multi. rewrite Hp. simpl.
  by destruct (decide (observable = "Hermitian"%string)).
Qed.

Lemma probabilities_no_wires_witness :
  probabilities uncached_dev [] = Ok [0%Qc]
  /\ expval uncached_dev "PauliZ" [] [] = Ok VNone
  /\ var uncached_dev "PauliZ" [] [] = Ok VNone.
Proof.
  destruct (probabilities_no_wires uncached_dev) as [Hp Hn].
  split; [exact Hp|]. by apply Hn.
Defined.

(** ** Reading a wire that was not measured *)

Lemma columns_KeyError d st ws1 w ws2 :
  state d = Some st ->
  (forall w', w' ∈ ws1 -> is_Some (st !! w')) ->
  st !! w = None ->
  mapM_res (state_get d) (ws1 ++ w :: ws2) = Raise (KeyError_state w).
Proof.
  intros Hst Hws1 Hw. induction ws1 as [|w1 ws1 IH]; simpl.
  - unfold state_get. by rewrite Hst, Hw.
  - destruct (Hws1 w1) as [col Hcol]; [by left|].
    rewrite (state_get_Some d st w1 col Hst Hcol). simpl.
    rewrite IH; [done|]. intros w' Hw'. apply Hws1. by right.
Qed.

(** X10: a wire absent from the measurement state makes [probabilities]
    raise the [KeyError] of that wire (the first absent one), and with it
    [expval] and [var]; only [var] of Identity on one wire answers 0
    without looking at the state. *)
Theorem unmeasured_wire_raises d st w :
  state d = Some st -> st !! w = None ->
  (forall ws1 ws2,
     (forall w', w' ∈ ws1 -> is_Some (st !! w')) ->
     probabilities d (ws1 ++ w :: ws2) = Raise (KeyError_state w)
     /\ forall observable par,
          expval d observable (ws1 ++ w :: ws2) par
          = Raise (KeyError_state w)
          /\ (~ (observable = "Identity"%string /\ ws1 = [] /\ ws2 = []) ->
              var d observable (ws1 ++ w :: ws2) par
              = Raise (KeyError_state w)))
  /\ forall par, var d "Identity" [w] par = Ok (VNum 0%Qc).
Proof.
  intros Hst Hw. split; [|by intros par; unfold var; rewrite decide_True].
  intros ws1 ws2 Hws1.
  assert (probabilities d (ws1 ++ w :: ws2) = Raise (KeyError_state w)) as Hp.
  { unfold probabilities. by rewrite (columns_KeyError d st ws1 w ws2). }
  assert (state_get d w = Raise (KeyError_state w)) as Hg.
  { unfold state_get. by rewrite Hst, Hw. }
  split; [done|]. intros observable par. split.
  - unfold expval. destruct ws1 as [|w1 [|w1' ws1']]; simpl.
    + destruct ws2; [by rewrite Hg|]. simpl app in Hp. by rewrite Hp.
    + simpl app in Hp. by rewrite Hp.
    + simpl app in Hp. by rewrite Hp.
  - intros Hnot. unfold var, var_multi.
    destruct ws1 as [|w1 [|w1' ws1']]; simpl.
    + destruct ws2.
      * rewrite decide_False by (intros ->; by apply Hnot).
        by rewrite Hg.
      * simpl app in Hp. by rewrite Hp.
    + simpl app in Hp. by rewrite Hp.
    + simpl app in Hp. by rewrite Hp.
Qed.

Lemma unmeasured_wire_raises_witness :
  (forall ws1 ws2,
     (forall w', w' ∈ ws1 -> is_Some (measured_state !! w')) ->
     probabilities measured_dev (ws1 ++ 5%nat :: ws2)
     = Raise (KeyError_state 5)
     /\ forall observable par,
          expval measured_dev observable (ws1 ++ 5%nat :: ws2) par
          = Raise (KeyError_state 5)
          /\ (~ (observable = "Identity"%string /\ ws1 = [] /\ ws2 = []) ->
              var measured_dev observable (ws1 ++ 5%nat :: ws2) par
              = Raise (KeyError_state 5)))
  /\ forall par, var measured_dev "Identity" [5%nat] par = Ok (VNum 0%Qc).
Proof.
  apply (unmeasured_wire_raises measured_dev measured_state 5%nat);
    reflexivity.
Defined.

(** ** A name outside the device's six observables *)

(** X11: for a name that is none of the six observables, on one measured
    wire [expval] still returns the mean of the +1/-1 samples, while [var]
    falls through to the multi-wire part and returns [None]. *)
Theorem unlisted_name_single_wire d st w col observable par :
  observable ∉ observables ->
  measured d st [w] -> st !! w = Some col ->
  expval d observable [w] par = Ok (VNum (sample_mean_pm1 col))
  /\ var d observable [w] par = Ok VNone.
Proof.
  intros Hobs Hm Hw.
  assert (observable <> "Identity"%string /\ observable <> "Hermitian"%string
          /\ observable ∉ simple_observables) as (HnI & HnH & HnS).
  { unfold observables, simple_observables in *.
    repeat split; intros Hin; apply Hobs; subst;
      repeat (apply elem_of_cons in Hin as [->|Hin]);
      try (by apply elem_of_nil in Hin);
      repeat (first [by left | right]). }
  destruct (measured_probabilities d st [w]) as (ps & Hps & _); [done..|].
  destruct Hm as (Hst & _ & _).
  split.
  - unfold expval. rewrite (state_get_Some d st w col Hst Hw). simpl.
    rewrite !decide_False by done. by rewrite np_mean_pm1.
  - unfold var. rewrite decide_False by done.
    rewrite (state_get_Some d st w col Hst Hw). simpl.
    rewrite decide_False by exact HnS. rewrite decide_False by done.
    unfold var_multi. rewrite Hps. simpl. by rewrite decide_False.
Qed.

Lemma unlisted_name_single_wire_witness :
  expval measured_dev "PauliW" [0%nat] []
  = Ok (VNum (sample_mean_pm1 [true; false; true; true]))
  /\ var measured_dev "PauliW" [0%nat] [] = Ok VNone.
Proof.
  apply (unlisted_name_single_wire measured_dev measured_state 0%nat
           [true; false; true; true] "PauliW" []); [| |reflexivity].
  - unfold observables. intros Hin.
    repeat (apply elem_of_cons in Hin as [Hin|Hin]; [discriminate Hin|]).
    by apply elem_of_nil in Hin.
  - apply measured_dev_measured.
    intros w Hw. apply list_elem_of_singleton in Hw as ->. by left.
Defined.

(** ** What the loop of [pre_measure] leaves alone *)

Section LoopFrame.
Variable eigh : matrix -> option (list Qc * matrix).

Lemma loop_frame_refl w : loop_frame w w.
Proof. repeat split. exists []. by rewrite app_nil_r. Qed.

Lemma loop_frame_trans w1 w2 w3 :
  loop_frame w1 w2 -> loop_frame w2 w3 -> loop_frame w1 w3.
Proof.
  intros (? & ? & ? & ? & Hs1 & Ht1) (? & ? & ? & ? & Hs2 & Ht2).
  repeat split; try congruence.
  exists (Hs1 ++ Hs2). by rewrite Ht2, Ht1, map_app, app_assoc.
Qed.

Lemma rotated_loop_frame e w r w' :
  rotated eigh e w (r, w') -> loop_frame w w'.
Proof.
  intros Hrot.
  inversion Hrot as [gs Hn|x Hn|H c Hn Hp Hc|H vals U Hn Hp Hc HE]; subst;
    try (repeat split; exists []; simpl; by rewrite app_nil_r).
  repeat split. by exists [H].
Qed.

Lemma rotate_all_loop_frame q w r w' :
  mapM_ (rotate eigh) q w = (r, w') -> loop_frame w w'.
Proof.
  revert w. induction q as [|e q IH]; intros w Hrun.
  - injection Hrun as <- <-. apply loop_frame_refl.
  - simpl in Hrun. unfold mbind, M_bind in Hrun.
    pose proof (rotate_rotated eigh e w) as Hrot.
    destruct (rotate eigh e w) as [[[]|x] w1];
      apply rotated_loop_frame in Hrot.
    + apply loop_frame_trans with w1; [done|by apply IH].
    + by injection Hrun as <- <-.
Qed.

Lemma mapM__app (q1 q2 : list observable) w :
  mapM_ (rotate eigh) (q1 ++ q2) w
  = match mapM_ (rotate eigh) q1 w with
    | (Ok _, w1) => mapM_ (rotate eigh) q2 w1
    | (Raise x, w1) => (Raise x, w1)
    end.
Proof.
  revert w. induction q1 as [|e q1 IH]; intros w; [done|].
  simpl. unfold mbind, M_bind.
  destruct (rotate eigh e w) as [[[]|x] w1]; [apply IH|done].
Qed.

Lemma rotate_bad_parameters e w x :
  name e = "Hermitian"%string ->
  bad_parameters (parameters e) = Some x ->
  rotate eigh e w = (Raise x, w).
Proof.
  intros Hn Hbad. unfold rotate. rewrite Hn. simpl.
  unfold mbind, M_bind, lift.
  destruct (parameters e) as [|[v|H] rest]; simpl in *; congruence.
Qed.

Lemma rotate_all_cached q w w' e :
  mapM_ (rotate eigh) q w = (Ok tt, w') ->
  e ∈ q -> name e = "Hermitian"%string ->
  exists H c, parameters e !! 0%nat = Some (PMat H)
              /\ _eigs (dev w') !! concat H = Some c.
Proof.
  revert w. induction q as [|e0 q IH]; intros w Hrun Hin Hn.
  { by apply elem_of_nil in Hin. }
  simpl in Hrun. unfold mbind, M_bind in Hrun.
  pose proof (rotate_rotated eigh e0 w) as Hrot.
  destruct (rotate eigh e0 w) as [[[]|x] w1]; [|done].
  apply elem_of_cons in Hin as [->|Hin]; [|by eapply IH].
  destruct (rotate_all_cache eigh q w1 _ _ Hrun) as [Hle _].
  inversion Hrot as [gs Hn'|x Hn'|H c Hn' Hp Hc|H vals U Hn' Hp Hc HE]; subst.
  - done.
  - exists H, c. split; [done|]. by apply Hle.
  - exists H, {| eigval := vals; eigvec := U |}. split; [done|].
    apply Hle. simpl. by rewrite lookup_insert_eq.
Qed.

End LoopFrame.

(** ** [pre_measure] fills the cache that [expval] and [var] read *)

Lemma pre_measure_loop_ok eigh get_qubits qc_compile qc_run w w' :
  pre_measure eigh get_qubits qc_compile qc_run w = (Ok tt, w') ->
  exists w1,
    mapM_ (rotate eigh) (obs_queue (dev w)) w = (Ok tt, w1)
    /\ measure_and_run get_qubits qc_compile qc_run w1 = (Ok tt, w').
Proof.
  unfold pre_measure. unfold mbind at 1 2, M_bind at 1 2. simpl.
  destruct (mapM_ (rotate eigh) (obs_queue (dev w)) w) as [[[]|x] w1];
    [|done].
  intros Hrun. by exists w1.
Qed.

(** X12: when [pre_measure] returns, the matrix of every Hermitian
    observable of the queue has an entry in the eigen-cache, so the
    lookups of [expval] and [var] for it find their key. *)
Theorem pre_measure_caches_queue eigh get_qubits qc_compile qc_run w w' e :
  pre_measure eigh get_qubits qc_compile qc_run w = (Ok tt, w') ->
  e ∈ obs_queue (dev w) -> name e = "Hermitian"%string ->
  exists H c,
    parameters e !! 0%nat = Some (PMat H)
    /\ _eigs (dev w') !! concat H = Some c
    /\ eigs_get (dev w') (concat H) = Ok c.
Proof.
  intros Hrun Hin Hn.
  destruct (pre_measure_loop_ok _ _ _ _ _ _ Hrun) as (w1 & Hloop & Hrest).
  destruct (rotate_all_cached eigh _ _ _ e Hloop Hin Hn) as (H & c & Hp & Hc).
  apply measure_and_run_frame in Hrest as (_ & He & _).
  exists H, c. unfold eigs_get. rewrite He, Hc. done.
Qed.

Lemma pre_measure_caches_queue_witness :
  exists H c,
    parameters demo_obs !! 0%nat = Some (PMat H)
    /\ _eigs (dev demo_measured) !! concat H = Some c
    /\ eigs_get (dev demo_measured) (concat H) = Ok c.
Proof.
  apply (pre_measure_caches_queue demo_eigh demo_get_qubits demo_compile
           demo_run demo_queued demo_measured demo_obs).
  - vm_compute. reflexivity.
  - vm_compute. do 2 right. left.
  - reflexivity.
Defined.

(** ** An observable without a matrix stops [pre_measure] early *)

Lemma run_calls_app t1 t2 : run_calls (t1 ++ t2) = run_calls t1 ++ run_calls t2.
Proof. unfold run_calls. by rewrite omap_app. Qed.

Lemma run_calls_eigh Hs : run_calls (map EvEigh Hs) = [].
Proof. induction Hs as [|H Hs IH]; [done|exact IH]. Qed.

(** X14: a Hermitian observable whose parameters do not start with an
    array makes [pre_measure] raise ([IndexError] for no parameter,
    [AttributeError] for a scalar) before anything is run: the backend is
    not called and the measurement state stays as it was, but the gates of
    the observables before it are already in the program. *)
Theorem pre_measure_stops_early eigh get_qubits qc_compile qc_run w q1 e q2 x :
  obs_queue (dev w) = q1 ++ e :: q2 ->
  cache_coherent eigh (dev w) ->
  Forall (hermitian_ok eigh) q1 ->
  name e = "Hermitian"%string ->
  bad_parameters (parameters e) = Some x ->
  exists w',
    pre_measure eigh get_qubits qc_compile qc_run w = (Raise x, w')
    /\ state (dev w') = state (dev w)
    /\ run_calls (trace w') = run_calls (trace w)
    /\ instrs (prog (dev w'))
       = instrs (prog (dev w)) ++ flat_map (rotation_gates eigh) q1.
Proof.
  intros Hq Hcoh Hq1 Hn Hbad.
  destruct (rotate_all_gates eigh q1 w Hq1 Hcoh) as (w1 & Hloop & Hi & _ & _).
  pose proof (rotate_all_loop_frame eigh q1 w _ _ Hloop)
    as (_ & _ & _ & Hst & Hs & Ht).
  exists w1.
  split; [|split; [done|split; [|done]]].
  - unfold pre_measure. unfold mbind at 1 2, M_bind at 1 2. simpl.
    rewrite Hq, mapM__app, Hloop. simpl. unfold mbind, M_bind.
    by rewrite (rotate_bad_parameters eigh e w1 x Hn Hbad).
  - by rewrite Ht, run_calls_app, run_calls_eigh, app_nil_r.
Qed.

Lemma pre_measure_stops_early_witness :
  exists w',
    pre_measure demo_eigh demo_get_qubits demo_compile demo_run demo_bad_queue
    = (Raise IndexError, w')
    /\ state (dev w') = state (dev demo_bad_queue)
    /\ run_calls (trace w') = run_calls (trace demo_bad_queue)
    /\ instrs (prog (dev w'))
       = instrs (prog (dev demo_bad_queue))
         ++ flat_map (rotation_gates demo_eigh) [demo_obs].
Proof.
  apply (pre_measure_stops_early demo_eigh demo_get_qubits demo_compile
           demo_run demo_bad_queue [demo_obs]
           {| name := "Hermitian"; wires := [1%nat]; parameters := [] |}
           [demo_obs] IndexError).
  - reflexivity.
  - intros k c Hk. vm_compute in Hk. discriminate Hk.
  - repeat constructor. intros _.
    exists H2, [], [1; 2]%Qc, [[(1, 0); (0, 0)]; [(0, 0); (1, 0)]]%Qc.
    split; [reflexivity|]. split; [repeat constructor|].
    vm_compute. reflexivity.
  - reflexivity.
  - reflexivity.
Defined.

(** ** The measurement state [pre_measure] builds *)

Lemma column_Ok (rows : list (list bool)) (i : nat) :
  Forall (fun row => (i < length row)%nat) rows ->
  column rows i = Ok (column_at rows i).
Proof.
  intros Hrows. unfold column, column_at. apply mapM_res_Ok.
  intros row Hrow.
  destruct (lookup_lt_is_Some_2 row i) as [b Hb].
  { by apply (proj1 (list.Forall_forall _ _) Hrows). }
  by rewrite Hb.
Qed.

Lemma count_measures_app (l1 l2 : list instr) :
  count_measures (l1 ++ l2) = (count_measures l1 + count_measures l2)%nat.
Proof. unfold count_measures. by rewrite list.filter_app, length_app. Qed.

Lemma count_measures_imap (h : nat -> nat) (qs : list nat) :
  count_measures (imap (fun i q => MEASURE q (h i)) qs) = length qs.
Proof.
  revert h. induction qs as [|q qs IH]; intros h; [done|].
  unfold count_measures in *. simpl imap. rewrite filter_cons. simpl.
  f_equal. apply (IH (fun i => h (S i))).
Qed.

Section StateExtraction.
Variable eigh : matrix -> option (list Qc * matrix).
Variable get_qubits : list instr -> list nat.
Variable qc_compile : program -> program.
Variable qc_run : list event -> program -> list (list bool).

Lemma extract_state_lookup qs : forall i rows w st0,
  state (dev w) = Some st0 ->
  NoDup qs ->
  Forall (fun row => (i + length qs <= length row)%nat) rows ->
  exists w' st,
    extract_state i qs rows w = (Ok tt, w')
    /\ state (dev w') = Some st
    /\ shots (dev w') = shots (dev w)
    /\ prog (dev w') = prog (dev w)
    /\ (forall k q, qs !! k = Some q ->
          st !! q = Some (column_at rows (i + k)))
    /\ (forall q, q ∉ qs -> st !! q = st0 !! q).
Proof.
  induction qs as [|q qs IH]; intros i rows w st0 Hst Hnd Hrows.
  - exists w, st0. repeat split; try done;
      intros k q Hk; by rewrite lookup_nil in Hk.
  - apply list.NoDup_cons in Hnd as [Hq Hnd].
    simpl extract_state. unfold mbind at 1, M_bind at 1, lift.
    rewrite column_Ok.
    2:{ eapply list.Forall_impl; [exact Hrows|]. simpl. intros row. lia. }
    unfold mbind, M_bind, get_dev, set_dev. simpl. rewrite Hst. simpl.
    edestruct (IH (S i) rows
                 {| dev := with_state
                             (Some (<[q := column_at rows i]> st0)) (dev w);
                    trace := trace w |})
      as (w' & st & Hrun & Hst' & Hsh & Hpr & Hin & Hout);
      [reflexivity|done| |].
    { eapply list.Forall_impl; [exact Hrows|]. simpl. intros row. lia. }
    exists w', st. split; [exact Hrun|]. split; [done|].
    split; [done|]. split; [done|]. split.
    + intros [|k] q' Hk.
      * injection Hk as <-. rewrite Hout by done.
        by rewrite lookup_insert_eq, Nat.add_0_r.
      * rewrite (Hin k q' Hk). do 2 f_equal. lia.
    + intros q' Hq'. apply not_elem_of_cons in Hq' as [Hne Hq'].
      rewrite Hout by done. by rewrite lookup_insert_ne.
Qed.

Lemma run_program_bits d p w :
  exists t0 t,
    run_program qc_compile qc_run d p w
    = (Ok (qc_run t0 (if str_contains "pyqvm" (qc_name d)
                      then p else qc_compile p)),
       {| dev := dev w; trace := trace w ++ t |}).
Proof.
  unfold run_program. destruct (str_contains "pyqvm" (qc_name d)).
  - by exists (trace w), [EvRun p].
  - exists (trace w ++ [EvCompile p]), [EvCompile p; EvRun (qc_compile p)].
    unfold mbind, M_bind. simpl. by rewrite <- app_assoc.
Qed.

(** The part of [pre_measure] after the loop, on a well-shaped backend. *)
Lemma measure_and_run_state w :
  backend_ok get_qubits qc_compile qc_run ->
  0 < shots (dev w) ->
  let qubits := get_qubits (prologue (dev w) ++ instrs (prog (dev w))) in
  exists w' st rows,
    measure_and_run get_qubits qc_compile qc_run w = (Ok tt, w')
    /\ state (dev w') = Some st
    /\ shots (dev w') = shots (dev w)
    /\ Z.of_nat (length rows) = shots (dev w)
    /\ (exists t, rows = qc_run t (if str_contains "pyqvm" (qc_name (dev w))
                                   then prog (dev w')
                                   else qc_compile (prog (dev w'))))
    /\ (forall i q, qubits !! i = Some q ->
          st !! q = Some (column_at rows i))
    /\ (forall q, q ∉ qubits -> st !! q = None).
Proof.
  intros (Hnd & Hcomp & Hrun) Hpos qubits.
  assert (instrs (if active_reset (dev w)
                  then prog_inst {| instrs := [PragmaInitialRewiringPartial];
                                    num_shots := 1 |} RESET
                  else {| instrs := [PragmaInitialRewiringPartial];
                          num_shots := 1 |})
          = prologue (dev w)) as Hprag.
  { unfold prologue. by destruct (active_reset (dev w)). }
  unfold measure_and_run. unfold mbind at 1 2 3, M_bind at 1 2 3. simpl.
  rewrite Hprag. fold qubits.
  match goal with
  | |- context [run_program _ _ ?d ?p ?w0] =>
      destruct (run_program_bits d p w0) as (t0 & t & ->);
      set (pfinal := p) in *
  end.
  set (rows := qc_run t0 (if str_contains "pyqvm" (qc_name (dev w))
                          then pfinal else qc_compile pfinal)).
  assert (num_shots pfinal = shots (dev w)) as Hns by done.
  assert (length qubits <= count_measures (instrs pfinal))%nat as Hcm.
  { unfold pfinal. simpl. rewrite instrs_foldl_inst. simpl.
    rewrite !count_measures_app.
    rewrite (count_measures_imap (fun i => i)). lia. }
  assert (length rows = Z.to_nat (shots (dev w))
          /\ Forall (fun row => (0 + length qubits <= length row)%nat) rows)
    as [Hlen Hwidth].
  { unfold rows. destruct (str_contains "pyqvm" (qc_name (dev w))).
    - destruct (Hrun t0 pfinal) as [Hl Hw]. split; [by rewrite Hl, Hns|].
      eapply list.Forall_impl; [exact Hw|].
      intros row Hrow. cbv beta in *. lia.
    - destruct (Hrun t0 (qc_compile pfinal)) as [Hl Hw].
      destruct (Hcomp pfinal) as [Hs Hc].
      split; [by rewrite Hl, Hs, Hns|].
      eapply list.Forall_impl; [exact Hw|].
      intros row Hrow. cbv beta in *. lia. }
  unfold mbind at 1 2, M_bind at 1 2. simpl.
  edestruct (extract_state_lookup qubits 0 rows
               {| dev := with_state (Some ∅) (with_prog pfinal (dev w));
                  trace := trace w ++ t |} ∅)
    as (w' & st & Hex & Hst & Hsh & Hpr & Hin & Hout);
    [reflexivity|apply Hnd|exact Hwidth|].
  exists w', st, rows. split; [exact Hex|]. split; [done|].
  split; [done|]. split; [lia|]. split.
  - exists t0. unfold rows. by rewrite Hpr.
  - split; [done|]. intros q Hq. by rewrite Hout.
Qed.

(** [pre_measure] as a whole, on a well-shaped backend and a queue whose
    Hermitian observables can be diagonalised. *)
Lemma pre_measure_state w :
  backend_ok get_qubits qc_compile qc_run ->
  cache_coherent eigh (dev w) ->
  Forall (hermitian_ok eigh) (obs_queue (dev w)) ->
  0 < shots (dev w) ->
  let qubits :=
    get_qubits (prologue (dev w) ++ instrs (prog (dev w))
                ++ flat_map (rotation_gates eigh) (obs_queue (dev w))) in
  exists w' st rows,
    pre_measure eigh get_qubits qc_compile qc_run w = (Ok tt, w')
    /\ state (dev w') = Some st
    /\ shots (dev w') = shots (dev w)
    /\ Z.of_nat (length rows) = shots (dev w)
    /\ (exists t, rows = qc_run t (if str_contains "pyqvm" (qc_name (dev w))
                                   then prog (dev w')
                                   else qc_compile (prog (dev w'))))
    /\ (forall i q, qubits !! i = Some q ->
          st !! q = Some (column_at rows i))
    /\ (forall q, q ∉ qubits -> st !! q = None).
Proof.
  intros Hback Hcoh Hq Hpos qubits.
  destruct (rotate_all_gates eigh (obs_queue (dev w)) w Hq Hcoh)
    as (w1 & Hloop & Hi & Ha & _).
  pose proof (rotate_all_loop_frame eigh _ w _ _ Hloop)
    as (Hsh & _ & Hqc & _ & _).
  destruct (measure_and_run_state w1 Hback) as
    (w' & st & rows & Hrun & Hst & Hsh' & Hlen & Hrows & Hin & Hout);
    [by rewrite Hsh|].
  assert (prologue (dev w1) ++ instrs (prog (dev w1))
          = prologue (dev w) ++ instrs (prog (dev w))
            ++ flat_map (rotation_gates eigh) (obs_queue (dev w))) as Hprog.
  { unfold prologue. by rewrite Ha, Hi. }
  rewrite Hprog in Hin, Hout. rewrite Hqc in Hrows.
  exists w', st, rows.
  split.
  { unfold pre_measure. unfold mbind at 1 2, M_bind at 1 2. simpl.
    by rewrite Hloop. }
  repeat split; try done; congruence.
Qed.

End StateExtraction.

Lemma length_column_at (rows : list (list bool)) (i : nat) :
  length (column_at rows i) = length rows.
Proof. unfold column_at. by rewrite length_map. Qed.

Lemma demo_backend_ok : backend_ok demo_get_qubits demo_compile zero_run.
Proof.
  split; [|split].
  - intros l. apply NoDup_remove_dups.
  - done.
  - intros t p. unfold zero_run. split; [by rewrite length_replicate|].
    apply Forall_replicate. by rewrite length_replicate.
Qed.

(** X13: on a backend that returns one row per shot and one bit per
    measurement, [pre_measure] returns and leaves a measurement state that
    holds, for the i-th qubit of the program, column i of the outcomes, and
    nothing for any other wire; every qubit of the program is then measured
    with [shots] bits. *)
Theorem pre_measure_measures eigh get_qubits qc_compile qc_run w :
  backend_ok get_qubits qc_compile qc_run ->
  cache_coherent eigh (dev w) ->
  Forall (hermitian_ok eigh) (obs_queue (dev w)) ->
  0 < shots (dev w) ->
  let qubits :=
    get_qubits (prologue (dev w) ++ instrs (prog (dev w))
                ++ flat_map (rotation_gates eigh) (obs_queue (dev w))) in
  exists w' st rows,
    pre_measure eigh get_qubits qc_compile qc_run w = (Ok tt, w')
    /\ state (dev w') = Some st
    /\ (exists t, rows = qc_run t (if str_contains "pyqvm" (qc_name (dev w))
                                   then prog (dev w')
                                   else qc_compile (prog (dev w'))))
    /\ (forall i q, qubits !! i = Some q ->
          st !! q = Some (column_at rows i))
    /\ (forall q, q ∉ qubits -> st !! q = None)
    /\ measured (dev w') st qubits.
Proof.
  intros Hback Hcoh Hq Hpos qubits.
  destruct (pre_measure_state eigh get_qubits qc_compile qc_run w
              Hback Hcoh Hq Hpos)
    as (w' & st & rows & Hrun & Hst & Hsh & Hlen & Hrows & Hin & Hout).
  exists w', st, rows. repeat split; try done.
  - by rewrite Hsh.
  - intros q Hq'. apply list_elem_of_lookup in Hq' as [i Hi].
    exists (column_at rows i). split; [by apply Hin|].
    by rewrite length_column_at, Hsh.
Qed.

Lemma pre_measure_measures_witness :
  let qubits :=
    demo_get_qubits
      (prologue (dev demo_queued) ++ instrs (prog (dev demo_queued))
       ++ flat_map (rotation_gates demo_eigh) (obs_queue (dev demo_queued))) in
  exists w' st rows,
    pre_measure demo_eigh demo_get_qubits demo_compile zero_run demo_queued
    = (Ok tt, w')
    /\ state (dev w') = Some st
    /\ (exists t, rows = zero_run t
                           (if str_contains "pyqvm" (qc_name (dev demo_queued))
                            then prog (dev w')
                            else demo_compile (prog (dev w'))))
    /\ (forall i q, qubits !! i = Some q ->
          st !! q = Some (column_at rows i))
    /\ (forall q, q ∉ qubits -> st !! q = None)
    /\ measured (dev w') st qubits.
Proof.
  apply (pre_measure_measures demo_eigh demo_get_qubits demo_compile zero_run
           demo_queued).
  - apply demo_backend_ok.
  - apply demo_queued_ok.
  - apply demo_queued_ok.
  - reflexivity.
Defined.

(** X18: after such a [pre_measure], [expval] of PauliX, PauliY, PauliZ
    or Hadamard on the i-th qubit of the program is the mean of
    [1 - 2 * bit] over column i of the outcomes the backend returned. *)
Theorem expval_after_pre_measure eigh get_qubits qc_compile qc_run w :
  backend_ok get_qubits qc_compile qc_run ->
  cache_coherent eigh (dev w) ->
  Forall (hermitian_ok eigh) (obs_queue (dev w)) ->
  0 < shots (dev w) ->
  let qubits :=
    get_qubits (prologue (dev w) ++ instrs (prog (dev w))
                ++ flat_map (rotation_gates eigh) (obs_queue (dev w))) in
  exists w' rows,
    pre_measure eigh get_qubits qc_compile qc_run w = (Ok tt, w')
    /\ (exists t, rows = qc_run t (if str_contains "pyqvm" (qc_name (dev w))
                                   then prog (dev w')
                                   else qc_compile (prog (dev w'))))
    /\ forall i q observable par,
         qubits !! i = Some q ->
         observable ∈ simple_observables ->
         expval (dev w') observable [q] par
         = Ok (VNum (sample_mean_pm1 (column_at rows i)))
         /\ (-1 <= sample_mean_pm1 (column_at rows i) <= 1)%Qc.
Proof.
  intros Hback Hcoh Hq Hpos qubits.
  destruct (pre_measure_state eigh get_qubits qc_compile qc_run w
              Hback Hcoh Hq Hpos)
    as (w' & st & rows & Hrun & Hst & Hsh & Hlen & Hrows & Hin & Hout).
  exists w', rows. split; [done|]. split; [done|].
  intros i q observable par Hi Hobs.
  destruct (simple_not_special _ Hobs) as [HnI HnH].
  split.
  - unfold expval.
    rewrite (state_get_Some (dev w') st q _ Hst (Hin i q Hi)). simpl.
    rewrite !decide_False by done. by rewrite np_mean_pm1.
  - apply sample_mean_pm1_bounds. intros Hnil.
    apply (f_equal length) in Hnil. rewrite length_column_at in Hnil.
    simpl in Hnil. lia.
Qed.

Lemma expval_after_pre_measure_witness :
  let qubits :=
    demo_get_qubits
      (prologue (dev demo_queued) ++ instrs (prog (dev demo_queued))
       ++ flat_map (rotation_gates demo_eigh) (obs_queue (dev demo_queued))) in
  exists w' rows,
    pre_measure demo_eigh demo_get_qubits demo_compile zero_run demo_queued
    = (Ok tt, w')
    /\ (exists t, rows = zero_run t
                           (if str_contains "pyqvm" (qc_name (dev demo_queued))
                            then prog (dev w')
                            else demo_compile (prog (dev w'))))
    /\ forall i q observable par,
         qubits !! i = Some q ->
         observable ∈ simple_observables ->
         expval (dev w') observable [q] par
         = Ok (VNum (sample_mean_pm1 (column_at rows i)))
         /\ (-1 <= sample_mean_pm1 (column_at rows i) <= 1)%Qc.
Proof.
  apply (expval_after_pre_measure demo_eigh demo_get_qubits demo_compile
           zero_run demo_queued).
  - apply demo_backend_ok.
  - apply demo_queued_ok.
  - apply demo_queued_ok.
  - reflexivity.
Defined.

(** On the all-zero backend the demo device reads +1 on wire 1. *)
Example demo_expval_zero_backend :
  expval (dev (pre_measure demo_eigh demo_get_qubits demo_compile zero_run
                 demo_queued).2) "PauliX" [1%nat] []
  = Ok (VNum 1%Qc).
Proof. vm_compute. do 2 f_equal. by apply Qc_is_canon. Qed.

(** ** Device names that start with the number of qubits *)

Ltac digit_at Hd k :=
  let H := fresh in
  pose proof (Hd k ltac:(lia)) as H; vm_compute in H; rewrite H.

Lemma uint_chars_digits digit (u : Decimal.uint) :
  ascii_digits digit ->
  Forall (fun c => is_digit digit c = true) (uint_chars u).
Proof.
  intros Hd. unfold is_digit.
  induction u; simpl; constructor; try done.
  - by digit_at Hd 0%nat.
  - by digit_at Hd 1%nat.
  - by digit_at Hd 2%nat.
  - by digit_at Hd 3%nat.
  - by digit_at Hd 4%nat.
  - by digit_at Hd 5%nat.
  - by digit_at Hd 6%nat.
  - by digit_at Hd 7%nat.
  - by digit_at Hd 8%nat.
  - by digit_at Hd 9%nat.
Qed.

Lemma int_of_uint_chars digit (u : Decimal.uint) (acc : nat) :
  ascii_digits digit ->
  foldl (fun a c => 10 * a + digit_value digit c) (Z.of_nat acc) (uint_chars u)
  = Z.of_nat (Nat.of_uint_acc u acc).
Proof.
  intros Hd.
  revert acc. induction u as [|u IH|u IH|u IH|u IH|u IH|u IH|u IH|u IH|u IH|u IH];
    intros acc; cbn [uint_chars foldl Nat.of_uint_acc]; [done|..];
    rewrite <- IH; f_equal; rewrite Nat.tail_mul_spec; unfold digit_value.
  - digit_at Hd 0%nat. simpl. lia.
  - digit_at Hd 1%nat. simpl. lia.
  - digit_at Hd 2%nat. simpl. lia.
  - digit_at Hd 3%nat. simpl. lia.
  - digit_at Hd 4%nat. simpl. lia.
  - digit_at Hd 5%nat. simpl. lia.
  - digit_at Hd 6%nat. simpl. lia.
  - digit_at Hd 7%nat. simpl. lia.
  - digit_at Hd 8%nat. simpl. lia.
  - digit_at Hd 9%nat. simpl. lia.
Qed.

Lemma int_of_decimal digit (n : nat) :
  ascii_digits digit -> int_of_digits digit (decimal n) = Z.of_nat n.
Proof.
  intros Hd. unfold int_of_digits, decimal.
  etrans; [exact (int_of_uint_chars digit (Nat.to_uint n) 0 Hd)|].
  f_equal. apply DecimalNat.Unsigned.of_to.
Qed.

Lemma decimal_nonempty (n : nat) : decimal n <> [].
Proof.
  unfold decimal. intros Hnil.
  assert (Nat.to_uint n = Decimal.Nil) as Hu
    by (destruct (Nat.to_uint n); simpl in Hnil; congruence).
  pose proof (DecimalNat.Unsigned.to_of (Nat.to_uint n)) as Hto.
  rewrite DecimalNat.Unsigned.of_to, Hu in Hto.
  by apply (DecimalFacts.unorm_nonnil Decimal.Nil).
Qed.

Lemma re_search_at_head digit ds c post :
  letters_q digit ->
  ds <> [] -> Forall (fun x => is_digit digit x = true) ds -> is_q c = true ->
  re_search digit (ds ++ c :: post) = Some ds.
Proof.
  intros Hl Hne Hds Hq.
  pose proof (occurrence_match_here digit Hl ds c post Hne Hds Hq) as Hm.
  destruct ds as [|a ds]; [done|].
  simpl app in *. by rewrite re_search_cons, Hm.
Qed.

(** X15: for a device name made of the decimal numeral of N, then q or Q,
    then anything ("Nq-qvm", "9q-square-qvm") and a positive shot count,
    [int] reads N and the base class is called with N wires; when it and
    [get_qc] accept the name, the device has N wires, the given shot count,
    the quantum computer of [get_qc] and an empty eigen-cache; when one of
    the three raises, so does construction. *)
Theorem init_named_device py (n : nat) c suffix shots0 :
  letters_q (unicode_digit py) -> ascii_digits (unicode_digit py) ->
  0 < shots0 -> is_q c = true ->
  let device := decimal n ++ c :: suffix in
  init py (DevStr device) shots0
  = match int_limit py (length (decimal n)) with
    | Some e => Raise e
    | None =>
        match forest_init py (Z.of_nat n) shots0 with
        | Some e => Raise e
        | None =>
            match get_qc py device with
            | Raise e => Raise e
            | Ok qc =>
                Ok {| num_wires := Z.of_nat n; shots := shots0;
                      active_reset := false; qc_name := qc; _eigs := ∅;
                      obs_queue := [];
                      prog := {| instrs := []; num_shots := 1 |};
                      state := None |}
            end
        end
    end.
Proof.
  intros Hl Hd Hpos Hq device. unfold init. rewrite decide_False by lia.
  simpl. unfold device.
  rewrite (re_search_at_head _ (decimal n) c suffix Hl
             (decimal_nonempty n) (uint_chars_digits _ _ Hd) Hq).
  unfold py_int.
  destruct (int_limit py (length (decimal n))); simpl; [done|].
  rewrite (int_of_decimal _ _ Hd).
  destruct (forest_init py (Z.of_nat n) shots0); simpl; [done|].
  by destruct (get_qc py _).
Qed.

Lemma demo_ascii_digits : ascii_digits demo_digit.
Proof.
  intros k Hk. do 10 (destruct k as [|k]; [reflexivity|]). lia.
Qed.

Lemma init_named_device_witness :
  init demo_host (DevStr (decimal 9 ++ 113%N :: chars "-square-qvm")) 1024
  = Ok {| num_wires := Z.of_nat 9; shots := 1024;
          active_reset := false; qc_name := "9q-square-qvm"; _eigs := ∅;
          obs_queue := [];
          prog := {| instrs := []; num_shots := 1 |};
          state := None |}.
Proof.
  exact (init_named_device demo_host 9 113%N (chars "-square-qvm") 1024
           demo_letters demo_ascii_digits ltac:(lia) eq_refl).
Defined.

(** The numeral of 9 is the one of the tests' device name. *)
Example decimal_9q :
  decimal 9 ++ 113%N :: chars "-square-qvm" = chars "9q-square-qvm".
Proof. reflexivity. Qed.

(** ** A second evaluation diagonalises nothing *)

Section Memo.
Variable eigh : matrix -> option (list Qc * matrix).

Lemma rotate_all_memo q w :
  Forall (hermitian_cached (dev w)) q ->
  exists w',
    mapM_ (rotate eigh) q w = (Ok tt, w')
    /\ _eigs (dev w') = _eigs (dev w)
    /\ trace w' = trace w.
Proof.
  revert w. induction q as [|e q IH]; intros w Hq.
  - by exists w.
  - apply list.Forall_cons in Hq as [He Hq].
    assert (exists gs, rotate eigh e w = (Ok tt, add_gates gs w)) as [gs Hrot].
    { destruct (decide (name e = "Hermitian"%string)) as [Hn|Hn].
      - destruct (He Hn) as (H & rest & Hp & [c Hc]).
        eexists. by apply (rotate_hit eigh e w H rest c).
      - eexists. by apply rotate_simple. }
    destruct (IH (add_gates gs w)) as (w' & Hrun & Hc & Ht); [done|].
    exists w'. simpl. unfold mbind, M_bind. by rewrite Hrot, Hrun.
Qed.

End Memo.

(** X16: when the matrix of every Hermitian observable of the queue is in
    the eigen-cache, [pre_measure] computes no eigendecomposition and
    leaves the cache as it is. *)
Theorem pre_measure_memoised eigh get_qubits qc_compile qc_run w :
  Forall (hermitian_cached (dev w)) (obs_queue (dev w)) ->
  let w' := (pre_measure eigh get_qubits qc_compile qc_run w).2 in
  _eigs (dev w') = _eigs (dev w)
  /\ eigh_keys (trace w') = eigh_keys (trace w).
Proof.
  intros Hq.
  destruct (rotate_all_memo eigh (obs_queue (dev w)) w Hq)
    as (w1 & Hloop & Hc & Ht).
  destruct (pre_measure eigh get_qubits qc_compile qc_run w) as [r w']
    eqn:Hrun.
  cbn [snd]. revert Hrun.
  unfold pre_measure. unfold mbind at 1 2, M_bind at 1 2. simpl.
  rewrite Hloop. intros Hrun.
  apply measure_and_run_frame in Hrun as (Ht' & Hc' & _).
  by rewrite Hc', Hc, Ht', Ht.
Qed.

Lemma demo_measured_cached_queue :
  Forall (hermitian_cached (dev demo_measured)) (obs_queue (dev demo_measured)).
Proof.
  assert (obs_queue (dev demo_measured) = obs_queue (dev demo_queued)) as ->
    by (vm_compute; reflexivity).
  repeat constructor; intros Hn; try discriminate Hn.
  exists H2, []. split; [reflexivity|]. vm_compute. eauto.
Qed.

Lemma pre_measure_memoised_witness :
  let w' := (pre_measure demo_eigh demo_get_qubits demo_compile demo_run
               demo_measured).2 in
  _eigs (dev w') = _eigs (dev demo_measured)
  /\ eigh_keys (trace w') = eigh_keys (trace demo_measured).
Proof.
  apply (pre_measure_memoised demo_eigh demo_get_qubits demo_compile demo_run
           demo_measured).
  apply demo_measured_cached_queue.
Defined.

(** ** What [pre_measure] sends to the backend *)

Section Calls.
Variable eigh : matrix -> option (list Qc * matrix).
Variable get_qubits : list instr -> list nat.
Variable qc_compile : program -> program.
Variable qc_run : list event -> program -> list (list bool).

Lemma run_program_calls d p w :
  exists bits t,
    run_program qc_compile qc_run d p w
    = (Ok bits, {| dev := dev w; trace := trace w ++ t |})
    /\ run_calls t = [if str_contains "pyqvm" (qc_name d)
                      then p else qc_compile p].
Proof.
  unfold run_program. destruct (str_contains "pyqvm" (qc_name d)).
  - by exists (qc_run (trace w) p), [EvRun p].
  - exists (qc_run (trace w ++ [EvCompile p]) (qc_compile p)),
           [EvCompile p; EvRun (qc_compile p)].
    split; [|done]. unfold mbind, M_bind. simpl.
    by rewrite <- app_assoc.
Qed.

Lemma extract_state_shots i qs rows w r w' :
  extract_state i qs rows w = (r, w') -> shots (dev w') = shots (dev w).
Proof.
  revert i w. induction qs as [|q qs IH]; intros i w Hrun.
  - by injection Hrun as <- <-.
  - simpl in Hrun. unfold mbind, M_bind, lift in Hrun.
    destruct (column rows i) as [col|x].
    + simpl in Hrun. by rewrite (IH _ _ Hrun).
    + by injection Hrun as <- <-.
Qed.

Lemma measure_and_run_calls w r w' :
  measure_and_run get_qubits qc_compile qc_run w = (r, w') ->
  run_calls (trace w')
  = run_calls (trace w)
    ++ [if str_contains "pyqvm" (qc_name (dev w))
        then prog (dev w') else qc_compile (prog (dev w'))]
  /\ num_shots (prog (dev w')) = shots (dev w)
  /\ shots (dev w') = shots (dev w).
Proof.
  unfold measure_and_run. unfold mbind at 1 2 3, M_bind at 1 2 3. simpl.
  match goal with
  | |- context [run_program _ _ ?d ?p ?w0] =>
      destruct (run_program_calls d p w0) as (bits & t & -> & Ht)
  end.
  unfold mbind at 1 2, M_bind at 1 2. simpl. intros Hrun.
  pose proof (extract_state_shots _ _ _ _ _ _ Hrun) as Hsh.
  apply extract_state_frame in Hrun as (-> & _ & ->). simpl.
  by rewrite run_calls_app, Ht.
Qed.

End Calls.

(** X17: a [pre_measure] whose loop goes through asks the backend for
    exactly one run: of the device's completed program, set to repeat
    [shots] times, as it is on a pyQVM and compiled otherwise. *)
Theorem pre_measure_runs_once eigh get_qubits qc_compile qc_run w :
  cache_coherent eigh (dev w) ->
  Forall (hermitian_ok eigh) (obs_queue (dev w)) ->
  let w' := (pre_measure eigh get_qubits qc_compile qc_run w).2 in
  run_calls (trace w')
  = run_calls (trace w)
    ++ [if str_contains "pyqvm" (qc_name (dev w))
        then prog (dev w') else qc_compile (prog (dev w'))]
  /\ num_shots (prog (dev w')) = shots (dev w)
  /\ shots (dev w') = shots (dev w).
Proof.
  intros Hcoh Hq.
  destruct (rotate_all_gates eigh (obs_queue (dev w)) w Hq Hcoh)
    as (w1 & Hloop & _).
  pose proof (rotate_all_loop_frame eigh _ w _ _ Hloop)
    as (Hsh & _ & Hqc & _ & Hs & Ht).
  destruct (pre_measure eigh get_qubits qc_compile qc_run w) as [r w']
    eqn:Hrun.
  cbn [snd]. revert Hrun.
  unfold pre_measure. unfold mbind at 1 2, M_bind at 1 2. simpl.
  rewrite Hloop. intros Hrun.
  apply measure_and_run_calls in Hrun as (Hcalls & Hns & Hsh').
  rewrite Hcalls, Ht, run_calls_app, run_calls_eigh, app_nil_r, Hqc.
  split; [done|]. split; congruence.
Qed.

Lemma pre_measure_runs_once_witness :
  let w' := (pre_measure demo_eigh demo_get_qubits demo_compile demo_run
               demo_queued).2 in
  run_calls (trace w')
  = run_calls (trace demo_queued)
    ++ [if str_contains "pyqvm" (qc_name (dev demo_queued))
        then prog (dev w') else demo_compile (prog (dev w'))]
  /\ num_shots (prog (dev w')) = shots (dev demo_queued)
  /\ shots (dev w') = shots (dev demo_queued).
Proof.
  apply (pre_measure_runs_once demo_eigh demo_get_qubits demo_compile demo_run
           demo_queued); apply demo_queued_ok.
Defined.
